(** * bpf_dns.py: the DNS pattern compiler of bpftools

    A shallow embedding of [main] of [bpf_dns.py] and of its two local
    emitters [match_exact] and [match_star], together with the properties
    of the listing they print.

    Python 2 byte strings are lists of [ascii]; the text printed to
    [sys.stdout] is a list of [line]s, one per [print] statement, and
    [render] gives back the printed characters. *)

From Stdlib Require Import ZArith Lia List Ascii String HexadecimalString.
From stdpp Require Import base numbers list strings pretty.
From Equations Require Import Equations.

Local Open Scope Z_scope.

(** ** Python built-ins used by the program *)

Module Py.

(** A Python 2 [str]: a sequence of bytes. *)
Abbreviation str := (list ascii).

Definition of_string (s : string) : str := list_ascii_of_string s.

(** [ord(c)] *)
Definition ord (c : ascii) : Z := Z.of_N (N_of_ascii c).

(** [chr(n)]: raises [ValueError] outside [range(256)]. *)
Definition chr (n : nat) : option ascii :=
  if (n <? 256)%nat then Some (ascii_of_nat n) else None.

(** The bytes [str.strip()] removes when called without argument:
    tab, line feed, vertical tab, form feed, carriage return, space. *)
Definition isspace (c : ascii) : bool :=
  let n := nat_of_ascii c in
  ((9 <=? n)%nat && (n <=? 13)%nat) || (n =? 32)%nat.

Fixpoint lstrip (p : ascii → bool) (s : str) : str :=
  match s with
  | c :: s' => if p c then lstrip p s' else s
  | [] => []
  end.

Definition rstrip (p : ascii → bool) (s : str) : str :=
  rev (lstrip p (rev s)).

(** [s.strip(chars)], with [chars] given as a predicate. *)
Definition strip (p : ascii → bool) (s : str) : str :=
  rstrip p (lstrip p s).

(** [s.split(sep)] for a one-byte separator: never the empty list, and
    adjacent separators delimit empty parts. *)
Fixpoint split (sep : ascii) (s : str) : list str :=
  match s with
  | [] => [[]]
  | c :: s' =>
      if Ascii.eqb c sep then [] :: split sep s'
      else match split sep s' with
           | part :: parts => (c :: part) :: parts
           | [] => [[c]]
           end
  end.

(** [struct.unpack('!I' | '!H' | '!B', m)]: the bytes of [m] read as one
    unsigned integer in network byte order. The program only calls it on
    slices that have the length the format asks for: [s[:4]] when
    [len(s) >= 4], [s[:2]] when [len(s) >= 2], [s[:1]] of a non-empty
    [s], and the same slices of [mask], which is as long as [s]. *)
Definition unpack (m : str) : Z :=
  fold_left (λ acc c, Z.lor (Z.shiftl acc 8) (ord c)) m 0.

(** Lower-case hexadecimal digits of a natural number, as [%x] prints. *)
Definition hex (n : N) : string := NilZero.string_of_uint (N.to_hex_uint n).

Fixpoint zeros (n : nat) : string :=
  match n with O => "" | S n' => String "0" (zeros n') end.

(** ["%0<w>x" % n] for [n >= 0]. *)
Definition hex_pad (w : nat) (n : Z) : string :=
  let h := hex (Z.to_N n) in
  zeros (w - String.length h) +:+ h.

(** [s.encode('hex')] *)
Definition encode_hex (s : str) : string :=
  fold_right (λ c acc, hex_pad 2 (ord c) +:+ acc) "" s.

(** ["%i" % n] *)
Definition dec (n : Z) : string := pretty n.

Definition quote : ascii := "'".
Definition dquote : ascii := ascii_of_nat 34.
Definition backslash : ascii := ascii_of_nat 92.

(** [repr(s)] of a byte string, as [%r] prints it: single quotes unless
    the string holds a single quote and no double quote. *)
Definition repr_char (q c : ascii) : string :=
  let n := nat_of_ascii c in
  if Ascii.eqb c q || Ascii.eqb c backslash then String backslash (String c "")
  else if (n =? 9)%nat then String backslash "t"
  else if (n =? 10)%nat then String backslash "n"
  else if (n =? 13)%nat then String backslash "r"
  else if (n <? 32)%nat || (127 <=? n)%nat
       then String backslash ("x" +:+ hex_pad 2 (ord c))
  else String c "".

Definition repr (s : str) : string :=
  let q := if existsb (Ascii.eqb quote) s && negb (existsb (Ascii.eqb dquote) s)
           then dquote else quote in
  String q (fold_right (λ c acc, repr_char q c +:+ acc) (String q "") s).

End Py.

Import Py.

(** ** The listing printed to [sys.stdout] *)

(** Load widths of the three indexed loads [ld], [ldh], [ldb]. *)
Inductive width := Word | Half | Byte.

Definition bytes_of (w : width) : nat :=
  match w with Word => 4%nat | Half => 2%nat | Byte => 1%nat end.

(** The instructions [bpf_dns.py] prints, one constructor per format
    string of the source. *)
Inductive insn :=
| ld_ind (w : width) (off : Z)              (* ld|ldh|ldb [x + off] *)
| or_imm (w : width) (k : Z)                (* or #0x... *)
| jneq (w : width) (k : Z) (target : string)  (* jneq #0x..., target *)
| txa
| tax
| add_x                                     (* add x *)
| add_imm (k : Z)                           (* add #k *)
| ldx_msh (off : Z)                         (* ldx 4*([off]&0xf) *)
| ld_imm (k : Z)                            (* ld #k *)
| st_M0                                     (* st M[0] *)
| ldx_M0                                    (* ldx M[0] *)
| ret (k : Z).                              (* ret #k *)

(** One printed line: an instruction, a [;] comment, a label declaration
    or the empty line of a bare [print]. *)
Inductive line :=
| Insn (i : insn)
| Comment (text : string)
| Label (name : string)
| Blank.

Global Instance width_eq_dec : EqDecision width.
Proof. solve_decision. Defined.
Global Instance insn_eq_dec : EqDecision insn.
Proof. solve_decision. Defined.
Global Instance line_eq_dec : EqDecision line.
Proof. solve_decision. Defined.

Definition mnemonic (w : width) : string :=
  match w with Word => "ld" | Half => "ldh" | Byte => "ldb" end.

Definition hex_width (w : width) : nat := (2 * bytes_of w)%nat.

Definition render_insn (i : insn) : string :=
  match i with
  | ld_ind w off => mnemonic w +:+ " [x + " +:+ dec off +:+ "]"
  | or_imm w k => "or #0x" +:+ hex_pad (hex_width w) k
  | jneq w k target => "jneq #0x" +:+ hex_pad (hex_width w) k +:+ ", " +:+ target
  | txa => "txa"
  | tax => "tax"
  | add_x => "add x"
  | add_imm k => "add #" +:+ dec k
  | ldx_msh off => "ldx 4*([" +:+ dec off +:+ "]&0xf)"
  | ld_imm k => "ld #" +:+ dec k
  | st_M0 => "st M[0]"
  | ldx_M0 => "ldx M[0]"
  | ret k => "ret #" +:+ dec k
  end.

Definition render (l : line) : string :=
  match l with
  | Insn i => "    " +:+ render_insn i
  | Comment text => "    ; " +:+ text
  | Label name => name +:+ ":"
  | Blank => ""
  end.

(** ['lb_%i' % (i,)] *)
Definition lb (i : nat) : string := "lb_" +:+ dec (Z.of_nat i).

(** ** Rules *)

(** One byte of a literal label with its [is_char] flag: [(False, chr(len))]
    for the length byte, [(True, c)] for a character. *)
Abbreviation encoded := (bool * ascii)%type.

(** An entry of [rule] as the tokenizer builds it: [(False, '*')] is
    [Wildcard], [(True, bytes)] is [Literal bytes]. *)
Inductive label :=
| Wildcard
| Literal (bytes : list encoded).

(** An element of a merged rule: the string ['*'] or a list of encoded
    bytes. *)
Inductive step :=
| SkipOneLabel
| CompareRun (bytes : list encoded).

Definition star : str := ["*"%char].
Definition dot : ascii := "."%char.

(** [domain.strip(".").strip()] followed by [domain += '.'] *)
Definition normalize (domain : str) : str :=
  strip isspace (strip (Ascii.eqb dot) domain) ++ [dot].

(** The body of [for part in domain.split(".")]. *)
Definition encode_part (part : str) : option label :=
  if decide (part = star) then Some Wildcard
  else c ← chr (length part);
       Some (Literal ((false, c) :: ((λ c, (true, c)) <$> part))).

(** [rule] of one [domain], before merging; [None] when [chr] raises. *)
Definition tokenize (domain : str) : option (list label) :=
  mapM encode_part (split dot (normalize domain)).

(** Modelled from the spec: [utils.merge], of the repository's [utils]
    module, is not among the sources. Following the Run Merger: walk the
    labels in order, accumulating consecutive literal labels' bytes into one
    growing run; at a wildcard close the current run, if non-empty, and
    append the wildcard step; after the last label close any open run. *)
Definition close (run : list encoded) : list step :=
  match run with [] => [] | _ => [CompareRun run] end.

Fixpoint merge_from (run : list encoded) (rule : list label) : list step :=
  match rule with
  | [] => close run
  | Literal bytes :: rule' => merge_from (run ++ bytes) rule'
  | Wildcard :: rule' => close run ++ SkipOneLabel :: merge_from [] rule'
  end.

Definition merge (rule : list label) : list step := merge_from [] rule.

(** ** The emitters *)

(** The mask byte [match_exact] appends for one [(is_char, b)]. *)
Definition mask_byte (ignorecase : bool) (e : encoded) : ascii :=
  let '(is_char, b) := e in
  if is_char && Ascii.eqb b "?" then ascii_of_nat 255
  else if is_char && ignorecase then ascii_of_nat 32
  else ascii_of_nat 0.

(** The three lines of one branch of the [while s:] loop: the load, the
    [or] when [mm] is non-zero, and the [jneq] against [m], which is
    [m | mm] in that case. *)
Definition chunk (w : width) (m mm off : Z) (target : string) : list line :=
  Insn (ld_ind w off)
  :: (if decide (mm = 0) then [] else [Insn (or_imm w mm)])
  ++ [Insn (jneq w (if decide (mm = 0) then m else Z.lor m mm) target)].

(** The [while s:] loop of [match_exact]: the lines printed and the final
    value of [off]. *)
Equations? compare_loop (target : string) (s mask : str) (off : Z)
  : list line * Z by wf (length s) lt :=
  compare_loop target [] mask off := ([], off);
  compare_loop target s mask off with le_lt_dec 4 (length s) := {
    | left _ :=
        let r := compare_loop target (drop 4 s) (drop 4 mask) (off + 4) in
        (chunk Word (unpack (take 4 s)) (unpack (take 4 mask)) off target ++ r.1, r.2)
    | right _ with le_lt_dec 2 (length s) := {
      | left _ :=
          let r := compare_loop target (drop 2 s) (drop 2 mask) (off + 2) in
          (chunk Half (unpack (take 2 s)) (unpack (take 2 mask)) off target ++ r.1, r.2)
      | right _ :=
          let r := compare_loop target (drop 1 s) (drop 1 mask) (off + 1) in
          (chunk Byte (unpack (take 1 s)) (unpack (take 1 mask)) off target ++ r.1, r.2) } }.
Proof. all: rewrite ?length_drop; simpl in *; lia. Qed.

(** Command-line settings of [main] that reach the printed listing. *)
Inductive ipver := IPv4 | IPv6.

Record options := {
  ignorecase : bool;
  negate : bool;
  l3_off : Z;
  ipversion : ipver
}.

(** The [mask] string [match_exact] builds from [rule]. *)
Definition mask_of (ignorecase : bool) (rule : list encoded) : str :=
  mask_byte ignorecase <$> rule.

(** [''.join(map(lambda (is_char, b): b, rule))] *)
Definition bytes_of_rule (rule : list encoded) : str := snd <$> rule.

(** ["; Match: %s %r  mask=%s" % (s.encode('hex'), s, mask.encode('hex'))] *)
Definition match_comment (s mask : str) : string :=
  "Match: " +:+ encode_hex s +:+ " " +:+ repr s +:+ "  mask="
  +:+ encode_hex mask.

(** [match_exact(rule, label, last)] *)
Definition match_exact (ignorecase : bool) (rule : list encoded)
    (target : string) (last : bool) : list line :=
  let mask := mask_of ignorecase rule in
  let s := bytes_of_rule rule in
  let r := compare_loop target s mask 0 in
  Comment (match_comment s mask)
  :: r.1
  ++ (if last then [] else [Insn txa; Insn (add_imm r.2); Insn tax]).

(** [match_star()] *)
Definition match_star : list line :=
  [ Comment "Match: *";
    Insn (ld_ind Byte 0);
    Insn add_x;
    Insn (add_imm 1);
    Insn tax ].

(** The body of [for j, rule in enumerate(rules)]. *)
Definition emit_step (o : options) (i len j : nat) (rule : step) : list line :=
  let last := bool_decide (Z.of_nat j = Z.of_nat len - 1) in
  match rule with
  | CompareRun bytes => match_exact (ignorecase o) bytes (lb (i + 1)) last
  | SkipOneLabel => match_star
  end.

(** The lines printed before the pattern blocks. *)
Definition offset_code (o : options) : list line :=
  match ipversion o with
  | IPv4 =>
      [ Insn (ldx_msh (l3_off o));
        Comment ("l3_off(" +:+ dec (l3_off o) +:+ ") + 8 of udp + 12 of dns");
        Insn (ld_imm (l3_off o + 8 + 12));
        Insn add_x ]
  | IPv6 =>
      [ Insn (ld_imm (l3_off o + 40 + 8 + 12)) ]
  end.

Definition prologue (o : options) (list_of_rules : list (list step)) : list line :=
  offset_code o
  ++ [ Insn tax;
       Comment "a = x = M[0] = offset of first dns query byte";
       (if decide (1 < length list_of_rules)%nat
        then Insn st_M0 else Comment "st M[0]");
       Blank ].

(** The body of [for i, rules in enumerate(list_of_rules)]. *)
Definition pattern_block (o : options) (i : nat) (rules : list step) : list line :=
  Label (lb i)
  :: (if decide (i ≠ 0%nat) then Insn ldx_M0 else Comment "ldx M[0]")
  :: concat (imap (emit_step o i (length rules)) rules)
  ++ [ Insn (ret (if negb (negate o) then 1 else 0)); Blank ].

(** The two lines printed after the loop, [i] being its last value. *)
Definition reject_block (o : options) (i : nat) : list line :=
  [ Label (lb (i + 1)); Insn (ret (if negb (negate o) then 0 else 1)) ].

(** The value of the loop variable [i] once
    [for i, rules in enumerate(list_of_rules)] has finished; unbound when
    the loop body never ran. *)
Definition final_i (list_of_rules : list (list step)) : option nat :=
  last (imap (λ i _, i) list_of_rules).

(** Everything [main] prints from [if ipversion == 4:] on; [None] when the
    last [print] finds [i] unbound. *)
Definition program (o : options) (list_of_rules : list (list step))
  : option (list line) :=
  i ← final_i list_of_rules;
  Some (prologue o list_of_rules
        ++ concat (imap (pattern_block o) list_of_rules)
        ++ reject_block o i).

(** Why [main] stops before printing anything. *)
Inductive failure :=
| NoDomain        (* "At least one domain name required.", exit status -1 *)
| ChrOutOfRange   (* ValueError from chr(len(part)) *)
| Unbound.        (* NameError *)

(** [main], from the parsed options and the positional arguments to the
    assembly listing. *)
Definition main (o : options) (args : list str) : failure + list line :=
  match args with
  | [] => inl NoDomain
  | _ =>
      match mapM tokenize args with
      | None => inl ChrOutOfRange
      | Some rules =>
          match program o (merge <$> rules) with
          | None => inl Unbound
          | Some listing => inr listing
          end
      end
  end.

(** The characters written to [sys.stdout]. *)
Definition newline : string := String (ascii_of_nat 10) "".

Definition render_listing (listing : list line) : string :=
  fold_right (λ l acc, render l +:+ newline +:+ acc) "" listing.

Definition default_options : options :=
  {| ignorecase := false; negate := false; l3_off := 14; ipversion := IPv4 |}.

(** ** The chunking of a comparison run, as the specification words it *)

(** A run of [n] bytes is cut into [n / 4] chunks of four bytes, then one of
    two bytes iff [n mod 4 >= 2], then one of one byte iff [n] is odd. *)
Definition chunk_widths (n : nat) : list width :=
  replicate (n / 4) Word
  ++ (if decide (2 ≤ n mod 4)%nat then [Half] else [])
  ++ (if Nat.odd n then [Byte] else []).

(** For each chunk, taken at its offset [off] from the front of the run: a
    load of the chunk's width at [off]; an [or] of the chunk's mask iff that
    mask is non-zero; a [jneq] against the packed bytes or-ed with the mask. *)
Fixpoint spec_compare (target : string) (ws : list width) (s mask : str)
    (off : nat) : list line :=
  match ws with
  | [] => []
  | w :: ws' =>
      let m := unpack (take (bytes_of w) (drop off s)) in
      let mm := unpack (take (bytes_of w) (drop off mask)) in
      [Insn (ld_ind w (Z.of_nat off))]
      ++ (if decide (mm ≠ 0) then [Insn (or_imm w mm)] else [])
      ++ [Insn (jneq w (Z.lor m mm) target)]
      ++ spec_compare target ws' s mask (off + bytes_of w)
  end.

(** Normalization as the specification words it: whitespace first, then
    dots, then the terminating dot. *)
Definition spec_normalize (domain : str) : str :=
  strip (Ascii.eqb dot) (strip isspace domain) ++ [dot].

(** ** What a listing compares, masks and declares *)

(** [k] as [n] bytes in network byte order. *)
Fixpoint be_bytes (n : nat) (k : Z) : str :=
  match n with
  | O => []
  | S n' => be_bytes n' (Z.shiftr k 8) ++ [ascii_of_N (Z.to_N (Z.land k 255))]
  end.

(** The bytes a line compares the packet against. *)
Definition compared (l : line) : str :=
  match l with
  | Insn (jneq w k _) => be_bytes (bytes_of w) k
  | _ => []
  end.

Definition compared_bytes (listing : list line) : str :=
  concat (compared <$> listing).

(** The labels a listing declares, in order. *)
Definition label_of (l : line) : option string :=
  match l with Label name => Some name | _ => None end.

Definition labels (listing : list line) : list string := omap label_of listing.

(** The verdicts a listing returns, in order. *)
Definition ret_of (l : line) : option Z :=
  match l with Insn (ret k) => Some k | _ => None end.

Definition rets (listing : list line) : list Z := omap ret_of listing.

(** The instructions of a listing, comments, labels and empty lines left
    out. *)
Definition insn_of (l : line) : option insn :=
  match l with Insn i => Some i | _ => None end.

Definition insns (listing : list line) : list insn := omap insn_of listing.

(** How many times a listing holds the instruction [i]. *)
Definition count (i : insn) (listing : list line) : nat :=
  length (filter (λ l, l = Insn i) listing).

(** The lines a step of a pattern block may print: comments and
    instructions other than the scratch store and reload and [ret], every
    [jneq] going to [target]. *)
Definition step_line (target : string) (l : line) : Prop :=
  match l with
  | Insn (jneq _ _ t) => t = target
  | Insn st_M0 | Insn ldx_M0 | Insn (ret _) => False
  | Insn _ | Comment _ => True
  | Label _ | Blank => False
  end.

(** The pattern blocks from the [i]-th on, one after the other. *)
Fixpoint blocks_from (o : options) (i : nat) (list_of_rules : list (list step))
  : list line :=
  match list_of_rules with
  | [] => []
  | rules :: rest => pattern_block o i rules ++ blocks_from o (S i) rest
  end.

(** The number of bytes a list of chunks covers. *)
Definition width_sum (ws : list width) : nat := sum_list (bytes_of <$> ws).

(** The blocks from the [i]-th on, followed by the reject block. *)
Definition tail_from (o : options) (i : nat) (rs : list (list step)) : list line :=
  blocks_from o i rs
  ++ [Label (lb (i + length rs));
      Insn (ret (if negb (negate o) then 0 else 1))].

(** ** Worked inputs *)

(** [bpf_dns.py -s 'fin?.me' '*.a'] *)
Definition fint_args : list str := [of_string "fin?.me"; of_string "*.a"].

Definition fint_rules : list (list step) :=
  [ [ CompareRun
        ([(false, "004"%char)] ++ ((λ c, (true, c)) <$> of_string "fin?")
         ++ [(false, "002"%char)] ++ ((λ c, (true, c)) <$> of_string "me")
         ++ [(false, "000"%char)]) ];
    [ SkipOneLabel;
      CompareRun
        ([(false, "001"%char)] ++ ((λ c, (true, c)) <$> of_string "a")
         ++ [(false, "000"%char)]) ] ].

Definition fint_listing : list line :=
  [ Insn (ldx_msh 14);
    Comment "l3_off(14) + 8 of udp + 12 of dns";
    Insn (ld_imm 34);
    Insn add_x;
    Insn tax;
    Comment "a = x = M[0] = offset of first dns query byte";
    Insn st_M0;
    Blank;
    Label "lb_0";
    Comment "ldx M[0]";
    Comment "Match: 0466696e3f026d6500 '\x04fin?\x02me\x00'  mask=00000000ff00000000";
    Insn (ld_ind Word 0);
    Insn (jneq Word 0x0466696e "lb_1");
    Insn (ld_ind Word 4);
    Insn (or_imm Word 0xff000000);
    Insn (jneq Word 0xff026d65 "lb_1");
    Insn (ld_ind Byte 8);
    Insn (jneq Byte 0 "lb_1");
    Insn (ret 1);
    Blank;
    Label "lb_1";
    Insn ldx_M0;
    Comment "Match: *";
    Insn (ld_ind Byte 0);
    Insn add_x;
    Insn (add_imm 1);
    Insn tax;
    Comment "Match: 016100 '\x01a\x00'  mask=000000";
    Insn (ld_ind Half 0);
    Insn (jneq Half 0x0161 "lb_2");
    Insn (ld_ind Byte 2);
    Insn (jneq Byte 0 "lb_2");
    Insn (ret 1);
    Blank;
    Label "lb_2";
    Insn (ret 0) ].

(** The encoded label [com]. *)
Definition com_rule : list encoded :=
  (false, "003"%char) :: ((λ c, (true, c)) <$> of_string "com").

(** [bpf_dns.py -s -i -n -o 0 -6 a-b] *)
Definition inet6_options : options :=
  {| ignorecase := true; negate := true; l3_off := 0; ipversion := IPv6 |}.

Definition inet6_listing : list line :=
  [ Insn (ld_imm 60);
    Insn tax;
    Comment "a = x = M[0] = offset of first dns query byte";
    Comment "st M[0]";
    Blank;
    Label "lb_0";
    Comment "ldx M[0]";
    Comment "Match: 03612d6200 '\x03a-b\x00'  mask=0020202000";
    Insn (ld_ind Word 0);
    Insn (or_imm Word 0x00202020);
    Insn (jneq Word 0x03612d62 "lb_1");
    Insn (ld_ind Byte 4);
    Insn (jneq Byte 0 "lb_1");
    Insn (ret 0);
    Blank;
    Label "lb_1";
    Insn (ret 1) ].

(** ** Further observations *)

(** [sep.join(parts)] for a one-byte separator. *)
Fixpoint join (sep : ascii) (parts : list str) : str :=
  match parts with
  | [] => []
  | part :: parts' =>
      match parts' with
      | [] => part
      | _ => part ++ sep :: join sep parts'
      end
  end.

(** The part of the domain a label was built from: ['*'] for the wildcard,
    the characters behind the length byte for a literal label. *)
Definition part_of (l : label) : str :=
  match l with
  | Wildcard => star
  | Literal bytes => snd <$> drop 1 bytes
  end.

(** A domain has a part too long for [chr(len(part))]. *)
Definition long_part (domain : str) : Prop :=
  Exists (λ part : str, (256 ≤ length part)%nat) (split dot (normalize domain)).

(** The lines of one step, [last] given: what the body of
    [for j, rule in enumerate(rules)] prints once [last] is known. *)
Definition step_with (o : options) (i : nat) (last : bool) (rule : step)
  : list line :=
  match rule with
  | CompareRun bytes => match_exact (ignorecase o) bytes (lb (i + 1)) last
  | SkipOneLabel => match_star
  end.

(** The listing with its two verdicts exchanged. *)
Definition swap_ret (l : line) : line :=
  match l with
  | Insn (ret k) => Insn (ret (1 - k))
  | _ => l
  end.

(** The options with [negate] set to [b]. *)
Definition with_negate (b : bool) (o : options) : options :=
  {| ignorecase := ignorecase o; negate := b;
     l3_off := l3_off o; ipversion := ipversion o |}.

(** Bitwise or of two bytes. *)
Definition byte_or (a b : ascii) : ascii :=
  ascii_of_N (N.lor (N_of_ascii a) (N_of_ascii b)).

(** The byte range a line loads, relative to the cursor. *)
Definition loaded (l : line) : option (Z * Z) :=
  match l with
  | Insn (ld_ind w off) => Some (off, off + Z.of_nat (bytes_of w))
  | _ => None
  end.

(** The constant a line carries together with the width it is printed in. *)
Definition constant (l : line) : option (width * Z) :=
  match l with
  | Insn (or_imm w k) => Some (w, k)
  | Insn (jneq w k _) => Some (w, k)
  | _ => None
  end.

(** [c.lower()] for one byte. *)
Definition lower (c : ascii) : ascii :=
  let n := nat_of_ascii c in
  if (65 <=? n)%nat && (n <=? 90)%nat then ascii_of_nat (n + 32) else c.

(** A run with its characters in lower case, the length bytes kept. *)
Definition lower_rule (rule : list encoded) : list encoded :=
  (λ e : encoded, if e.1 then (true, lower e.2) else e) <$> rule.

(** [-o 18 -6]: IPv6 behind an Ethernet header with one VLAN tag. *)
Definition vlan6_options : options :=
  {| ignorecase := false; negate := false; l3_off := 18; ipversion := IPv6 |}.

(** The ranges follow one another from [a] to [b], none of them empty. *)
Fixpoint tiles (a : Z) (ranges : list (Z * Z)) (b : Z) : Prop :=
  match ranges with
  | [] => a = b
  | (x, y) :: rest => x = a ∧ a < y ∧ tiles y rest b
  end.

(** ** The option loop of [main] *)

(** What ends the loop over [opts] before the domains are looked at:
    [usage()] leaving through [sys.exit(2)], the [ValueError] of [int(a)],
    the failing [assert]. *)
Inductive halt := Usage | BadOffset | Unhandled.

(** The local variables the loop sets: the options that reach the listing
    and [assembly]. *)
Abbreviation settings := (options * bool)%type.

(** [ignorecase = negate = assembly = False], [l3_off = 14],
    [ipversion = 4] *)
Definition initial_settings : settings := (default_options, false).

(** One turn of [for o, a in opts:]. [int] stands for Python's [int(a)],
    [None] being its [ValueError]. *)
Definition handle_opt (int : string → option Z) (st : settings)
    (oa : string * string) : halt + settings :=
  let '(o, a) := oa in
  let '(s, assembly) := st in
  if decide (o ∈ ["-h"; "--help"]) then inl Usage
  else if decide (o ∈ ["-i"; "--ignore-case"]) then
    inr ({| ignorecase := true; negate := negate s;
            l3_off := l3_off s; ipversion := ipversion s |}, assembly)
  else if decide (o ∈ ["-n"; "--negate"]) then
    inr ({| ignorecase := ignorecase s; negate := true;
            l3_off := l3_off s; ipversion := ipversion s |}, assembly)
  else if decide (o ∈ ["-s"; "--assembly"]) then inr (s, true)
  else if decide (o ∈ ["-o"; "--offset"]) then
    match int a with
    | Some n => inr ({| ignorecase := ignorecase s; negate := negate s;
                        l3_off := n; ipversion := ipversion s |}, assembly)
    | None => inl BadOffset
    end
  else if decide (o ∈ ["-6"; "--inet6"]) then
    inr ({| ignorecase := ignorecase s; negate := negate s;
            l3_off := l3_off s; ipversion := IPv6 |}, assembly)
  else inl Unhandled.

(** [for o, a in opts:] *)
Fixpoint handle_opts (int : string → option Z) (st : settings)
    (opts : list (string * string)) : halt + settings :=
  match opts with
  | [] => inr st
  | oa :: opts' =>
      match handle_opt int st oa with
      | inl h => inl h
      | inr st' => handle_opts int st' opts'
      end
  end.

(** Whether one of [names] is among the options. *)
Definition given (names : list string) (opts : list (string * string)) : bool :=
  existsb (λ oa : string * string, bool_decide (oa.1 ∈ names)) opts.

(** The offsets the options ask for, in order. *)
Definition offsets (int : string → option Z) (opts : list (string * string))
  : list Z :=
  omap (λ oa : string * string,
          if decide (oa.1 ∈ ["-o"; "--offset"]) then int oa.2 else None) opts.

(** ** Chunking *)

Section chunking.

Lemma chunk_widths_0 : chunk_widths 0 = [].
Proof. reflexivity. Qed.

Lemma chunk_widths_1 : chunk_widths 1 = [Byte].
Proof. reflexivity. Qed.

Lemma chunk_widths_half n :
  (2 ≤ n < 4)%nat → chunk_widths n = Half :: chunk_widths (n - 2).
Proof.
  intros Hn. assert (n = 2 ∨ n = 3)%nat as [-> | ->] by lia; reflexivity.
Qed.

Lemma chunk_widths_word n :
  (4 ≤ n)%nat → chunk_widths n = Word :: chunk_widths (n - 4).
Proof.
  intros Hn. destruct (Nat.le_exists_sub 4 n Hn) as (k & -> & _).
  rewrite Nat.add_sub. unfold chunk_widths.
  change (k + 4)%nat with (k + 1 * 4)%nat.
  rewrite Nat.div_add, Nat.Div0.mod_add, Nat.odd_add by lia.
  change (Nat.odd (1 * 4)) with false. rewrite xorb_false_r.
  rewrite Nat.add_1_r. reflexivity.
Qed.

Lemma chunk_spec w m mm off target :
  chunk w m mm off target =
    [Insn (ld_ind w off)]
    ++ (if decide (mm ≠ 0) then [Insn (or_imm w mm)] else [])
    ++ [Insn (jneq w (Z.lor m mm) target)].
Proof.
  unfold chunk. destruct (decide (mm = 0)) as [-> | Hmm].
  - rewrite Z.lor_0_r. destruct (decide (0 ≠ 0)); [congruence | reflexivity].
  - destruct (decide (mm ≠ 0)); [reflexivity | contradiction].
Qed.

Lemma take_drop_prefix (k n : nat) (pre s : str) :
  length pre = n → take k (drop n (pre ++ s)) = take k s.
Proof. intros <-. by rewrite drop_app_length. Qed.

(** One turn of the loop against the head of the specification's chunk
    list. *)
Lemma spec_compare_step target w ws (s mask pre premask : str) r :
  length premask = length pre →
  length mask = length s →
  (bytes_of w ≤ length s)%nat →
  r = (spec_compare target ws
         ((pre ++ take (bytes_of w) s) ++ drop (bytes_of w) s)
         ((premask ++ take (bytes_of w) mask) ++ drop (bytes_of w) mask)
         (length (pre ++ take (bytes_of w) s)),
       Z.of_nat (length (pre ++ take (bytes_of w) s)
                 + length (drop (bytes_of w) s))) →
  (chunk w (unpack (take (bytes_of w) s)) (unpack (take (bytes_of w) mask))
     (Z.of_nat (length pre)) target ++ r.1, r.2) =
    (spec_compare target (w :: ws) (pre ++ s) (premask ++ mask) (length pre),
     Z.of_nat (length pre + length s)).
Proof.
  intros Hpre Hmask Hw ->. cbn [fst snd spec_compare].
  rewrite chunk_spec, !take_drop_prefix by done.
  rewrite <- !(assoc_L (++)), !take_drop.
  rewrite !length_app, length_take, length_drop.
  rewrite (Nat.min_l _ _ Hw).
  do 2 f_equal. lia.
Qed.

(** The loop agrees with the specification's chunking when it is entered
    [length pre] bytes into a run. *)
Lemma compare_loop_spec target s mask off :
  ∀ pre premask : str,
    length premask = length pre →
    length mask = length s →
    off = Z.of_nat (length pre) →
    compare_loop target s mask off =
      (spec_compare target (chunk_widths (length s)) (pre ++ s)
         (premask ++ mask) (length pre),
       Z.of_nat (length pre + length s)).
Proof.
  funelim (compare_loop target s mask off);
    intros pre premask Hpre Hmask ->.
  - simpl. by rewrite Nat.add_0_r.
  - rewrite chunk_widths_word by done.
    apply (spec_compare_step target Word); [done .. |].
    rewrite (H (pre ++ take 4 (a :: l)) (premask ++ take 4 mask0)).
    + cbn [bytes_of]. by rewrite length_drop.
    + rewrite !length_app, !length_take. lia.
    + rewrite !length_drop. lia.
    + rewrite length_app, length_take. lia.
  - rewrite chunk_widths_half by (simpl in *; lia).
    apply (spec_compare_step target Half); [done .. |].
    rewrite (H (pre ++ take 2 (a :: l)) (premask ++ take 2 mask0)).
    + cbn [bytes_of]. by rewrite length_drop.
    + rewrite !length_app, !length_take. lia.
    + rewrite !length_drop. lia.
    + rewrite length_app, length_take. lia.
  - assert (l = []) as -> by (destruct l; simpl in *; [done | lia]).
    change (chunk_widths (length [a])) with (Byte :: chunk_widths 0).
    apply (spec_compare_step target Byte); [done | done | simpl; lia |].
    rewrite (H (pre ++ take 1 [a]) (premask ++ take 1 mask0)).
    + done.
    + by rewrite !length_app, !length_take, Hmask, Hpre.
    + by rewrite !length_drop, Hmask.
    + rewrite length_app, length_take. cbn [length]. lia.
Qed.

End chunking.

Section packing.

Lemma ord_range c : 0 ≤ ord c < 256.
Proof.
  unfold ord. pose proof (N_ascii_bounded c). lia.
Qed.

Lemma unpack_snoc (m : str) c :
  unpack (m ++ [c]) = Z.lor (Z.shiftl (unpack m) 8) (ord c).
Proof. unfold unpack. by rewrite fold_left_app. Qed.

Lemma shiftr_pack u c : Z.shiftr (Z.lor (Z.shiftl u 8) (ord c)) 8 = u.
Proof.
  pose proof (ord_range c).
  rewrite Z.shiftr_lor, Z.shiftr_shiftl_l, Z.sub_diag, Z.shiftl_0_r by lia.
  rewrite (Z.shiftr_div_pow2 (ord c)), Z.div_small by lia.
  apply Z.lor_0_r.
Qed.

Lemma land_pack u c : Z.land (Z.lor (Z.shiftl u 8) (ord c)) 255 = ord c.
Proof.
  pose proof (ord_range c).
  change 255 with (Z.ones 8).
  rewrite Z.land_lor_distr_l, !Z.land_ones, Z.shiftl_mul_pow2 by lia.
  rewrite Z.mod_mul, Z.mod_small by lia. apply Z.lor_0_l.
Qed.

Lemma ascii_of_ord c : ascii_of_N (Z.to_N (ord c)) = c.
Proof. unfold ord. by rewrite N2Z.id, ascii_N_embedding. Qed.

(** Packing then unpacking a chunk gives the chunk back. *)
Lemma be_bytes_unpack (m : str) : be_bytes (length m) (unpack m) = m.
Proof.
  induction m as [| c m IH] using rev_ind; [done |].
  rewrite length_app, Nat.add_1_r, unpack_snoc. cbn [be_bytes].
  by rewrite shiftr_pack, land_pack, ascii_of_ord, IH.
Qed.

Lemma unpack_zeros n : unpack (replicate n (ascii_of_nat 0)) = 0.
Proof.
  induction n as [| n IH] using nat_ind; [done |].
  by rewrite replicate_S_end, unpack_snoc, IH.
Qed.

End packing.

(** ** The comparison emitter *)

Section comparison.

Lemma width_sum_cons w ws :
  width_sum (w :: ws) = (bytes_of w + width_sum ws)%nat.
Proof. reflexivity. Qed.

(** The chunks of a run of [n] bytes cover exactly [n] bytes. *)
Lemma chunk_widths_sum n : width_sum (chunk_widths n) = n.
Proof.
  induction n as [n IH] using lt_wf_ind.
  destruct (decide (4 ≤ n)%nat) as [H4 | H4].
  - rewrite chunk_widths_word, width_sum_cons, IH by lia. cbn. lia.
  - destruct (decide (2 ≤ n)%nat) as [H2 | H2].
    + rewrite chunk_widths_half, width_sum_cons, IH by lia. cbn. lia.
    + assert (n = 0 ∨ n = 1)%nat as [-> | ->] by lia; reflexivity.
Qed.

Lemma compared_bytes_app l1 l2 :
  compared_bytes (l1 ++ l2) = compared_bytes l1 ++ compared_bytes l2.
Proof. unfold compared_bytes. by rewrite fmap_app, concat_app. Qed.

(** Under an all-zero mask the chunks carry no [or], and their constants
    spell the bytes of the run. *)
Lemma spec_compare_zero_mask target ws (s : str) n off :
  (off + width_sum ws ≤ length s)%nat →
  compared_bytes (spec_compare target ws s (replicate n (ascii_of_nat 0)) off)
    = take (width_sum ws) (drop off s)
  ∧ ∀ w k,
      Insn (or_imm w k)
        ∉ spec_compare target ws s (replicate n (ascii_of_nat 0)) off.
Proof.
  revert off. induction ws as [| w ws IH]; intros off Hlen.
  { split; [done | intros w k; apply not_elem_of_nil]. }
  rewrite width_sum_cons in *.
  destruct (IH (off + bytes_of w)%nat) as [IH1 IH2]; [lia |].
  cbn [spec_compare].
  rewrite drop_replicate, take_replicate, unpack_zeros, Z.lor_0_r.
  destruct (decide (0 ≠ 0)) as [? | _]; [done |].
  split.
  - rewrite !compared_bytes_app, IH1. cbn.
    rewrite app_nil_r.
    replace (bytes_of w) with (length (take (bytes_of w) (drop off s))) at 1
      by (rewrite length_take, length_drop; lia).
    by rewrite be_bytes_unpack, <- drop_drop, take_take_drop.
  - intros w' k. cbn. rewrite !not_elem_of_cons. split_and!; [done .. |].
    apply IH2.
Qed.

Lemma mask_of_length ic rule : length (mask_of ic rule) = length rule.
Proof. apply length_fmap. Qed.

Lemma bytes_of_rule_length rule : length (bytes_of_rule rule) = length rule.
Proof. apply length_fmap. Qed.

(** [match_exact] in terms of the specification's chunking. *)
Lemma match_exact_spec_compare ic rule target last :
  match_exact ic rule target last =
    Comment (match_comment (bytes_of_rule rule) (mask_of ic rule))
    :: spec_compare target (chunk_widths (length rule))
         (bytes_of_rule rule) (mask_of ic rule) 0
    ++ (if last then []
        else [Insn txa; Insn (add_imm (Z.of_nat (length rule))); Insn tax]).
Proof.
  unfold match_exact.
  rewrite (compare_loop_spec target _ _ 0 [] []); [| done | | done].
  - cbn [fst snd app length]. by rewrite bytes_of_rule_length.
  - by rewrite mask_of_length, bytes_of_rule_length.
Qed.

(** Without a [?] among its characters, a run compared case-sensitively
    has an all-zero mask. *)
Lemma mask_of_no_wildcard (rule : list encoded) :
  (∀ b, (true, b) ∈ rule → b ≠ "?"%char) →
  mask_of false rule = replicate (length rule) (ascii_of_nat 0).
Proof.
  induction rule as [| [is_char b] rule IH]; intros Hq; [done |].
  cbn [length replicate]. rewrite <- IH.
  - unfold mask_of. cbn [fmap list_fmap]. f_equal. destruct is_char; [| done].
    assert (b ≠ "?"%char) as Hb by (apply Hq; left).
    cbn. by destruct (Ascii.eqb_spec b "?").
  - intros b' Hb'. apply Hq. by right.
Qed.

(** The encoding of a part without [?] has no [?] among its characters,
    even when the length byte is 63, the code of [?]. *)
Lemma encode_part_no_wildcard (part : str) (len : ascii) :
  "?"%char ∉ part →
  ∀ b, (true, b) ∈ (false, len) :: ((λ c, (true, c)) <$> part) → b ≠ "?"%char.
Proof.
  intros Hq b [Hb | Hb]%elem_of_cons; [done |].
  apply list_elem_of_fmap in Hb as (c & [= ->] & Hc). by intros ->.
Qed.

End comparison.

(** C1. For every comparison run, [match_exact] cuts the run from the front
    into [n / 4] four-byte chunks, then a two-byte chunk iff [n mod 4 >= 2],
    then a one-byte chunk iff [n] is odd, and prints for each chunk a load
    of its width at the working offset, an [or] of the chunk's mask iff the
    mask is non-zero, and a [jneq] against the chunk's big-endian value
    or-ed with the mask; the chunks cover the run, and the cursor advance
    that follows a run that is not the last adds the run's length. *)
Theorem match_exact_chunks ic (rule : list encoded) target last :
  let n := length rule in
  let ws := replicate (n / 4) Word
            ++ (if decide (2 ≤ n mod 4)%nat then [Half] else [])
            ++ (if Nat.odd n then [Byte] else []) in
  width_sum ws = n
  ∧ match_exact ic rule target last =
      Comment (match_comment (bytes_of_rule rule) (mask_of ic rule))
      :: spec_compare target ws (bytes_of_rule rule) (mask_of ic rule) 0
      ++ (if last then []
          else [Insn txa; Insn (add_imm (Z.of_nat n)); Insn tax]).
Proof.
  intros n ws. split.
  - apply chunk_widths_sum.
  - apply match_exact_spec_compare.
Qed.

(** C2. The mask byte at every position of a run is [0xff] where the source
    character is [?], whatever the case setting; [0x20] for any other
    character when case is ignored; [0x00] otherwise, the length byte
    included. For a run without [?], compiled case-sensitively, the mask is
    all-zero, no [or] is printed, and the compared constants spell the run's
    bytes; the run of a literal label without [?] is such a run, and its
    bytes are the label's wire bytes: the length byte, then the
    characters. *)
Theorem comparison_mask :
  (∀ (ic : bool) (rule : list encoded) (k : nat) (is_char : bool) (b : ascii),
      rule !! k = Some (is_char, b) →
      mask_of ic rule !! k =
        Some (if is_char
              then if decide (b = "?"%char) then ascii_of_nat 255
                   else if ic then ascii_of_nat 32 else ascii_of_nat 0
              else ascii_of_nat 0))
  ∧ (∀ (rule : list encoded) target last,
        (∀ b, (true, b) ∈ rule → b ≠ "?"%char) →
        mask_of false rule = replicate (length rule) (ascii_of_nat 0)
        ∧ (∀ w k, Insn (or_imm w k) ∉ match_exact false rule target last)
        ∧ compared_bytes (match_exact false rule target last)
          = bytes_of_rule rule)
  ∧ (∀ (part : str) (rule : list encoded),
        encode_part part = Some (Literal rule) →
        "?"%char ∉ part →
        (∃ len, chr (length part) = Some len ∧ bytes_of_rule rule = len :: part)
        ∧ (∀ b, (true, b) ∈ rule → b ≠ "?"%char)).
Proof.
  split_and!.
  - intros ic rule k is_char b Hk. unfold mask_of.
    rewrite list_lookup_fmap, Hk. cbn. f_equal.
    destruct is_char; [| done]. cbn.
    destruct (Ascii.eqb_spec b "?"), (decide (b = "?"%char)); done.
  - intros rule target last Hq.
    pose proof (mask_of_no_wildcard rule Hq) as Hmask.
    split; [done |].
    rewrite match_exact_spec_compare, Hmask.
    destruct (spec_compare_zero_mask target (chunk_widths (length rule))
                (bytes_of_rule rule) (length rule) 0) as [Hcmp Hor].
    { rewrite chunk_widths_sum, bytes_of_rule_length. cbn. lia. }
    split.
    + intros w k. rewrite not_elem_of_cons, not_elem_of_app.
      split_and!; [done | apply Hor |].
      destruct last; [apply not_elem_of_nil |].
      rewrite !not_elem_of_cons. split_and!; [done .. | apply not_elem_of_nil].
    + change (Comment ?c :: ?l) with ([Comment c] ++ l).
      rewrite !compared_bytes_app, Hcmp, chunk_widths_sum, drop_0.
      rewrite take_ge by (by rewrite bytes_of_rule_length).
      destruct last; cbn; by rewrite app_nil_r.
  - intros part rule Henc Hq. unfold encode_part in Henc.
    destruct (decide (part = star)); [done |].
    destruct (chr (length part)) as [len |] eqn:Hchr; [| done].
    cbn in Henc. injection Henc as <-. split.
    + exists len. split; [done |]. unfold bytes_of_rule. cbn. f_equal.
      rewrite <- list_fmap_compose. apply list_fmap_id.
    + by apply encode_part_no_wildcard.
Qed.

(** ** The layout of the listing *)

Section layout.

Context (o : options).

Lemma count_app i l1 l2 : count i (l1 ++ l2) = (count i l1 + count i l2)%nat.
Proof. unfold count. by rewrite filter_app, length_app. Qed.

Lemma count_cons i l ls :
  count i (l :: ls) = ((if decide (l = Insn i) then 1 else 0) + count i ls)%nat.
Proof. unfold count. rewrite filter_cons. by destruct (decide (l = Insn i)). Qed.

Lemma labels_app l1 l2 : labels (l1 ++ l2) = labels l1 ++ labels l2.
Proof. apply omap_app. Qed.

Lemma rets_app l1 l2 : rets (l1 ++ l2) = rets l1 ++ rets l2.
Proof. apply omap_app. Qed.

(** What step lines contribute to the observations above: nothing. *)
Lemma step_lines_silent target ls :
  Forall (step_line target) ls →
  labels ls = [] ∧ rets ls = []
  ∧ count st_M0 ls = 0%nat ∧ count ldx_M0 ls = 0%nat.
Proof.
  induction 1 as [| l ls Hl _ (IH1 & IH2 & IH3 & IH4)]; [done |].
  rewrite !count_cons, IH3, IH4.
  unfold labels, rets in *. cbn. rewrite IH1, IH2.
  destruct l as [[] | | |]; cbn in Hl; try done.
Qed.

Lemma step_lines_target target ls w k t :
  Forall (step_line target) ls → Insn (jneq w k t) ∈ ls → t = target.
Proof. intros Hls Hin. by apply (proj1 (Forall_forall _ _) Hls) in Hin. Qed.

Lemma spec_compare_step_lines target ws s mask off :
  Forall (step_line target) (spec_compare target ws s mask off).
Proof.
  revert off. induction ws as [| w ws IH]; intros off; [constructor |].
  cbn [spec_compare]. repeat apply Forall_app_2; try apply IH.
  - by repeat constructor.
  - case_decide; by repeat constructor.
  - by repeat constructor.
Qed.

Lemma match_exact_step_lines ic rule target last :
  Forall (step_line target) (match_exact ic rule target last).
Proof.
  rewrite match_exact_spec_compare. constructor; [done |].
  apply Forall_app_2; [apply spec_compare_step_lines |].
  destruct last; by repeat constructor.
Qed.

Lemma match_star_step_lines target : Forall (step_line target) match_star.
Proof. by repeat constructor. Qed.

Lemma emit_step_lines i len j rule :
  Forall (step_line (lb (i + 1))) (emit_step o i len j rule).
Proof.
  destruct rule;
    [apply match_star_step_lines | apply match_exact_step_lines].
Qed.

Lemma concat_imap_Forall {A B} (P : B → Prop) (l : list A) :
  ∀ f : nat → A → list B,
    (∀ j x, Forall P (f j x)) → Forall P (concat (imap f l)).
Proof.
  induction l as [| x l IH]; intros f Hf; [constructor |].
  rewrite imap_cons. cbn. apply Forall_app_2; [apply Hf |].
  apply IH. intros j y. apply Hf.
Qed.

Lemma steps_step_lines i rules :
  Forall (step_line (lb (i + 1)))
    (concat (imap (emit_step o i (length rules)) rules)).
Proof. apply concat_imap_Forall. intros j x. apply emit_step_lines. Qed.

(** A pattern block: its label, the reload or its comment, step lines, the
    accepting [ret], an empty line. *)
Lemma pattern_block_shape i rules :
  ∃ steps,
    Forall (step_line (lb (i + 1))) steps
    ∧ pattern_block o i rules =
        [Label (lb i);
         if decide (i ≠ 0%nat) then Insn ldx_M0 else Comment "ldx M[0]"]
        ++ steps
        ++ [Insn (ret (if negb (negate o) then 1 else 0)); Blank].
Proof. eexists. split; [apply steps_step_lines | reflexivity]. Qed.

Lemma blocks_from_imap rs :
  ∀ i, concat (imap (λ j, pattern_block o (i + j)) rs) = blocks_from o i rs.
Proof.
  induction rs as [| r rs IH]; intros i; [done |].
  rewrite imap_cons, concat_cons, Nat.add_0_r. cbn [blocks_from]. f_equal.
  rewrite <- IH. f_equal. apply imap_ext. intros j x _. cbn. f_equal. lia.
Qed.

Lemma final_i_length rs : rs ≠ [] → final_i rs = Some (length rs - 1)%nat.
Proof.
  intros Hrs. unfold final_i.
  rewrite last_lookup, list_lookup_imap, length_imap.
  destruct (rs !! pred (length rs)) as [r |] eqn:Hr.
  - cbn. f_equal. lia.
  - apply lookup_ge_None in Hr. destruct rs; [done | cbn in Hr; lia].
Qed.

(** The listing: prologue, the pattern blocks in order, the reject block
    under the label that follows the last pattern's. *)
Lemma program_layout rs p :
  program o rs = Some p →
  rs ≠ []
  ∧ p = prologue o rs ++ blocks_from o 0 rs
        ++ [Label (lb (length rs));
            Insn (ret (if negb (negate o) then 0 else 1))].
Proof.
  unfold program. intros Hp.
  assert (rs ≠ []) as Hrs by (by intros ->).
  split; [done |].
  rewrite final_i_length in Hp by done. cbv [mbind option_bind] in Hp.
  injection Hp as <-. unfold reject_block.
  rewrite <- (blocks_from_imap rs 0).
  do 4 f_equal. f_equal. destruct rs; [done | cbn [length]; lia].
Qed.

Lemma program_total rs : rs ≠ [] → is_Some (program o rs).
Proof.
  intros Hrs. unfold program. by rewrite final_i_length.
Qed.

End layout.

(** ** Labels and branches *)

Section branches.

Context (o : options).

Global Instance lb_inj : Inj (=) (=) lb.
Proof.
  intros i j Hij. unfold lb, dec in Hij.
  apply (inj (String.app "lb_")), (inj pretty) in Hij. lia.
Qed.

Lemma labels_pattern_block i rules : labels (pattern_block o i rules) = [lb i].
Proof.
  destruct (pattern_block_shape o i rules) as (steps & Hsteps & ->).
  apply step_lines_silent in Hsteps as (Hl & _).
  rewrite !labels_app, Hl. by case_decide.
Qed.

Lemma labels_blocks_from rs :
  ∀ i, labels (blocks_from o i rs) = lb <$> seq i (length rs).
Proof.
  induction rs as [| r rs IH]; intros i; [done |].
  cbn [blocks_from]. by rewrite labels_app, labels_pattern_block, IH.
Qed.

Lemma labels_prologue rs : labels (prologue o rs) = [].
Proof.
  unfold prologue, offset_code.
  destruct (ipversion o); by case_decide.
Qed.

(** The labels of a listing are [lb_0] to [lb_n], each declared once. *)
Lemma labels_program rs p :
  program o rs = Some p → labels p = lb <$> seq 0 (S (length rs)).
Proof.
  intros (_ & ->)%program_layout.
  rewrite !labels_app, labels_prologue, labels_blocks_from, seq_S, fmap_app.
  done.
Qed.

Lemma label_declared (p : list line) pos t :
  p !! pos = Some (Label t) → t ∈ labels p.
Proof.
  intros Hpos. apply list_elem_of_omap. exists (Label t).
  split; [by eapply list_elem_of_lookup_2 | done].
Qed.

Lemma label_unique (p : list line) t :
  NoDup (labels p) →
  ∀ a b, p !! a = Some (Label t) → p !! b = Some (Label t) → a = b.
Proof.
  induction p as [| l p IH]; intros Hnd a b Ha Hb; [done |].
  assert (NoDup (labels p)) as Hnd'.
  { unfold labels in *. cbn in Hnd. destruct (label_of l); [| done].
    by apply NoDup_cons in Hnd as [_ ?]. }
  destruct a as [| a], b as [| b]; cbn in Ha, Hb.
  - done.
  - injection Ha as ->. apply label_declared in Hb.
    unfold labels in *. cbn in Hnd. by apply NoDup_cons in Hnd as [? _].
  - injection Hb as ->. apply label_declared in Ha.
    unfold labels in *. cbn in Hnd. by apply NoDup_cons in Hnd as [? _].
  - f_equal. by apply IH.
Qed.

Lemma tail_from_cons i r rs :
  tail_from o i (r :: rs) = pattern_block o i r ++ tail_from o (S i) rs.
Proof.
  unfold tail_from. cbn [blocks_from length].
  rewrite <- (assoc_L (++)). do 4 f_equal. f_equal. lia.
Qed.

Lemma tail_from_head i rs : tail_from o i rs !! 0%nat = Some (Label (lb i)).
Proof.
  destruct rs as [| r rs]; [unfold tail_from; cbn; by rewrite Nat.add_0_r |].
  by rewrite tail_from_cons.
Qed.

Lemma pattern_block_target i rules w k t :
  Insn (jneq w k t) ∈ pattern_block o i rules → t = lb (i + 1).
Proof.
  destruct (pattern_block_shape o i rules) as (steps & Hsteps & ->).
  rewrite !elem_of_app, !elem_of_cons, elem_of_nil.
  intros [[? | [? | []]] | [Hin | [? | [? | []]]]]; try done.
  - by case_decide.
  - by eapply step_lines_target.
Qed.

(** Behind every [jneq] of the tail its target is declared. *)
Lemma tail_from_forward rs :
  ∀ i pos w k t,
    tail_from o i rs !! pos = Some (Insn (jneq w k t)) →
    ∃ pos', (pos < pos')%nat ∧ tail_from o i rs !! pos' = Some (Label t).
Proof.
  induction rs as [| r rs IH]; intros i pos w k t Hpos.
  - unfold tail_from in Hpos. cbn in Hpos.
    destruct pos as [| [| pos]]; done.
  - rewrite tail_from_cons in Hpos |- *.
    destruct (decide (pos < length (pattern_block o i r))%nat) as [Hlt | Hge].
    + rewrite lookup_app_l in Hpos by done.
      apply list_elem_of_lookup_2, pattern_block_target in Hpos as ->.
      exists (length (pattern_block o i r)). split; [done |].
      rewrite lookup_app_r, Nat.sub_diag, tail_from_head by done.
      by rewrite Nat.add_1_r.
    + rewrite lookup_app_r in Hpos by lia.
      apply IH in Hpos as (pos' & Hlt & Hpos').
      exists (length (pattern_block o i r) + pos')%nat. split; [lia |].
      rewrite lookup_app_r by lia. rewrite <- Hpos'. f_equal. lia.
Qed.

Lemma prologue_no_jneq rs pos w k t :
  prologue o rs !! pos ≠ Some (Insn (jneq w k t)).
Proof.
  unfold prologue, offset_code. intros Hpos.
  destruct (ipversion o); case_decide;
    repeat (destruct pos as [| pos]; [done | cbn in Hpos]); done.
Qed.

End branches.

(** C3. Every conditional branch of pattern block [Pi] goes to the label
    [i+1], which heads block [P(i+1)] when there is one and the reject block
    when [Pi] is the last pattern; in the listing every branch target is
    declared at exactly one position, and that position comes after the
    branch. *)
Theorem branches_forward o (rs : list (list step)) (p : list line) :
  program o rs = Some p →
  (∀ (i : nat) rules w k t,
      rs !! i = Some rules →
      Insn (jneq w k t) ∈ pattern_block o i rules →
      t = lb (i + 1)
      ∧ (∀ rules', rs !! (i + 1)%nat = Some rules' →
           head (pattern_block o (i + 1) rules') = Some (Label t))
      ∧ ((i + 1)%nat = length rs →
           head (reject_block o (length rs - 1)) = Some (Label t)))
  ∧ p = prologue o rs ++ concat (imap (pattern_block o) rs)
        ++ reject_block o (length rs - 1)
  ∧ (∀ (pos : nat) w k t,
        p !! pos = Some (Insn (jneq w k t)) →
        ∃ pos' : nat,
          (pos < pos')%nat
          ∧ p !! pos' = Some (Label t)
          ∧ ∀ pos'' : nat, p !! pos'' = Some (Label t) → pos'' = pos').
Proof.
  intros Hp. split_and!.
  - intros i rules w k t Hi ->%pattern_block_target. split_and!; [done | done |].
    intros Hn. cbn. do 3 f_equal. lia.
  - destruct (program_layout o rs p Hp) as [Hrs ->].
    rewrite <- (blocks_from_imap o rs 0). unfold reject_block.
    do 4 f_equal. f_equal. destruct rs; [done | cbn [length]; lia].
  - intros pos w k t Hpos.
    assert (NoDup (labels p)) as Hnd.
    { rewrite (labels_program o rs p Hp). apply NoDup_fmap_2; [apply _ |].
      apply NoDup_seq. }
    destruct (program_layout o rs p Hp) as [Hrs Heq].
    assert (∃ pos' : nat, (pos < pos')%nat ∧ p !! pos' = Some (Label t))
      as (pos' & Hlt & Hpos').
    { rewrite Heq in Hpos |- *. fold (tail_from o 0 rs) in Hpos |- *.
      destruct (decide (pos < length (prologue o rs))%nat) as [Hin | Hout].
      - rewrite lookup_app_l in Hpos by done.
        by apply prologue_no_jneq in Hpos.
      - rewrite lookup_app_r in Hpos by lia.
        apply tail_from_forward in Hpos as (pos' & Hlt & Hpos').
        exists (length (prologue o rs) + pos')%nat. split; [lia |].
        rewrite lookup_app_r by lia. rewrite <- Hpos'. f_equal. lia. }
    exists pos'. split_and!; [done | done |].
    intros pos'' Hpos''. by eapply label_unique.
Qed.

(** ** Scratch store and reload, verdicts *)

Section scratch.

Context (o : options).

Lemma count_pattern_block i rules :
  count st_M0 (pattern_block o i rules) = 0%nat
  ∧ count ldx_M0 (pattern_block o i rules)
    = (if decide (i = 0%nat) then 0 else 1)%nat.
Proof.
  destruct (pattern_block_shape o i rules) as (steps & Hsteps & ->).
  apply step_lines_silent in Hsteps as (_ & _ & Hst & Hldx).
  rewrite !count_app, Hst, Hldx.
  destruct (decide (i = 0%nat)), (decide (i ≠ 0%nat)); done.
Qed.

Lemma count_blocks_from rs :
  ∀ i,
    count st_M0 (blocks_from o i rs) = 0%nat
    ∧ count ldx_M0 (blocks_from o i rs)
      = (if decide (i = 0%nat) then length rs - 1 else length rs)%nat.
Proof.
  induction rs as [| r rs IH]; intros i; [by case_decide |].
  cbn [blocks_from length]. rewrite !count_app.
  destruct (count_pattern_block i r) as [-> ->].
  destruct (IH (S i)) as [-> ->].
  split; [done |]. repeat case_decide; lia.
Qed.

Lemma count_prologue rs :
  count st_M0 (prologue o rs)
    = (if decide (1 < length rs)%nat then 1 else 0)%nat
  ∧ count ldx_M0 (prologue o rs) = 0%nat.
Proof.
  unfold prologue, offset_code.
  destruct (ipversion o); by case_decide.
Qed.

Lemma count_reject i t k :
  i ≠ ret k → count i [Label t; Insn (ret k)] = 0%nat.
Proof.
  intros Hi. rewrite !count_cons. repeat case_decide; congruence || done.
Qed.

Lemma count_program rs p :
  program o rs = Some p →
  count st_M0 p = (if decide (1 < length rs)%nat then 1 else 0)%nat
  ∧ count ldx_M0 p = (length rs - 1)%nat.
Proof.
  intros (_ & ->)%program_layout. rewrite !count_app.
  destruct (count_prologue rs) as [-> ->].
  destruct (count_blocks_from rs 0) as [-> ->].
  rewrite !count_reject by done.
  split; repeat case_decide; lia.
Qed.

Lemma rets_pattern_block i rules :
  rets (pattern_block o i rules) = [if negb (negate o) then 1 else 0].
Proof.
  destruct (pattern_block_shape o i rules) as (steps & Hsteps & ->).
  apply step_lines_silent in Hsteps as (_ & Hr & _).
  rewrite !rets_app, Hr. by case_decide.
Qed.

Lemma rets_blocks_from rs :
  ∀ i, rets (blocks_from o i rs)
       = replicate (length rs) (if negb (negate o) then 1 else 0).
Proof.
  induction rs as [| r rs IH]; intros i; [done |].
  cbn [blocks_from]. by rewrite rets_app, rets_pattern_block, IH.
Qed.

Lemma rets_prologue rs : rets (prologue o rs) = [].
Proof.
  unfold prologue, offset_code.
  destruct (ipversion o); by case_decide.
Qed.

End scratch.

(** C4, as the code has it. Whatever the number of patterns, block [Pi]
    opens with its label followed by the reload of the cursor from the
    scratch slot exactly when [i >= 1]; block [P0] prints the reload as a
    comment only, so the listing of [n] patterns holds [n - 1] reloads. *)
Theorem reload_after_first_block o (rs : list (list step)) (p : list line)
    (i : nat) (rules : list step) :
  program o rs = Some p →
  rs !! i = Some rules →
  pattern_block o i rules !! 0%nat = Some (Label (lb i))
  ∧ pattern_block o i rules !! 1%nat
    = Some (if decide (i = 0%nat) then Comment "ldx M[0]" else Insn ldx_M0)
  ∧ count ldx_M0 (pattern_block o i rules)
    = (if decide (i = 0%nat) then 0 else 1)%nat
  ∧ count ldx_M0 p = (length rs - 1)%nat.
Proof.
  intros Hp Hi. split_and!.
  - done.
  - cbn. by destruct (decide (i = 0%nat)), (decide (i ≠ 0%nat)).
  - apply count_pattern_block.
  - by destruct (count_program o rs p Hp).
Qed.

(** C5. A listing for one pattern holds neither the scratch store nor a
    reload. A listing for more patterns holds one store, right behind the
    [tax] that ends the offset computation, and one reload per pattern
    block after the first, right behind the block's label. *)
Theorem scratch_store_reload o (rs : list (list step)) (p : list line) :
  program o rs = Some p →
  (length rs = 1%nat → count st_M0 p = 0%nat ∧ count ldx_M0 p = 0%nat)
  ∧ ((1 < length rs)%nat →
       count st_M0 p = 1%nat
       ∧ (∃ rest,
            p = offset_code o
                ++ [Insn tax;
                    Comment "a = x = M[0] = offset of first dns query byte";
                    Insn st_M0]
                ++ rest)
       ∧ count ldx_M0 p = (length rs - 1)%nat
       ∧ ∀ (i : nat) rules,
           rs !! i = Some rules →
           count ldx_M0 (pattern_block o i rules)
             = (if decide (i = 0%nat) then 0 else 1)%nat
           ∧ (i ≠ 0%nat →
              pattern_block o i rules !! 0%nat = Some (Label (lb i))
              ∧ pattern_block o i rules !! 1%nat = Some (Insn ldx_M0))).
Proof.
  intros Hp. destruct (count_program o rs p Hp) as [Hst Hldx]. split.
  - intros Hn. rewrite Hst, Hldx, Hn. by case_decide.
  - intros Hn. split_and!.
    + rewrite Hst. by case_decide.
    + destruct (program_layout o rs p Hp) as [_ ->].
      unfold prologue. case_decide; [| lia].
      exists (Blank :: blocks_from o 0 rs
                ++ [Label (lb (length rs));
                    Insn (ret (if negb (negate o) then 0 else 1))]).
      by rewrite <- !(assoc_L (++)).
    + done.
    + intros i rules Hi. split; [apply count_pattern_block |].
      intros Hi0. split; [done |]. cbn. by destruct (decide (i ≠ 0%nat)).
Qed.

(** C9. The verdicts of a listing are, in order, one per pattern block and
    one for the reject block: [1] for the former and [0] for the latter
    without negation, [0] and [1] with it. Each pattern block ends with its
    [ret], and the listing ends with the reject block's. *)
Theorem ret_verdicts o (rs : list (list step)) (p : list line) :
  program o rs = Some p →
  let accept := if negate o then 0 else 1 in
  let reject := if negate o then 1 else 0 in
  rets p = replicate (length rs) accept ++ [reject]
  ∧ (∀ (i : nat) rules,
       rs !! i = Some rules →
       ∃ body, pattern_block o i rules = body ++ [Insn (ret accept); Blank]
               ∧ rets body = [])
  ∧ (∃ body, p = body ++ [Label (lb (length rs)); Insn (ret reject)]).
Proof.
  intros Hp accept reject.
  assert ((if negb (negate o) then 1 else 0) = accept) as Ha
    by (unfold accept; by destruct (negate o)).
  assert ((if negb (negate o) then 0 else 1) = reject) as Hr
    by (unfold reject; by destruct (negate o)).
  destruct (program_layout o rs p Hp) as [_ ->]. split_and!.
  - rewrite !rets_app, rets_prologue, rets_blocks_from, Ha, Hr. done.
  - intros i rules Hi.
    destruct (pattern_block_shape o i rules) as (steps & Hsteps & ->).
    apply step_lines_silent in Hsteps as (_ & Hrets & _).
    eexists. rewrite (assoc_L (++)), Ha. split; [reflexivity |].
    rewrite rets_app, Hrets. by case_decide.
  - eexists. rewrite (assoc_L (++)), Hr. reflexivity.
Qed.

(** C7. A wildcard step prints, after its comment, exactly four
    instructions: load the byte at the cursor, add the cursor register, add
    one, move the sum into the cursor register. It prints no [jneq] and
    names no label. *)
Theorem wildcard_step o (i len j : nat) :
  emit_step o i len j SkipOneLabel = match_star
  ∧ insns match_star = [ld_ind Byte 0; add_x; add_imm 1; tax]
  ∧ (∀ w k t, Insn (jneq w k t) ∉ match_star)
  ∧ labels match_star = [].
Proof.
  split_and!; [done | done | | done].
  intros w k t. unfold match_star.
  rewrite !not_elem_of_cons. split_and!; [done .. | apply not_elem_of_nil].
Qed.

(** C8. The listing starts with the computation of the query offset. For
    IPv4: load four times the low nibble of the byte at [l3_off] into the
    index register, load the constant [l3_off + 8 + 12], add the index
    register, move the sum into the cursor register. For IPv6: load the
    constant [l3_off + 40 + 8 + 12] and move it into the cursor register,
    with no load from the packet. *)
Theorem query_offset o (rs : list (list step)) (p : list line) :
  program o rs = Some p →
  ∃ rest,
    insns p =
      match ipversion o with
      | IPv4 => [ldx_msh (l3_off o); ld_imm (l3_off o + 8 + 12); add_x; tax]
      | IPv6 => [ld_imm (l3_off o + 40 + 8 + 12); tax]
      end ++ insns rest
    ∧ p = offset_code o ++ [Insn tax] ++ rest.
Proof.
  intros (_ & ->)%program_layout. unfold prologue.
  eexists. split; [| by rewrite <- !(assoc_L (++))].
  unfold insns, offset_code.
  destruct (ipversion o); by case_decide.
Qed.

(** ** The tokenizer *)

Section tokenizer.

Lemma split_not_nil sep s : split sep s ≠ [].
Proof.
  destruct s as [| c s]; [done |]. cbn.
  destruct (Ascii.eqb c sep); [done |]. by destruct (split sep s).
Qed.

(** A string that ends with the separator has an empty last part. *)
Lemma split_snoc sep s : split sep (s ++ [sep]) = split sep s ++ [[]].
Proof.
  induction s as [| c s IH]; cbn.
  - by rewrite Ascii.eqb_refl.
  - destruct (Ascii.eqb c sep); [by rewrite IH |].
    rewrite IH. pose proof (split_not_nil sep s).
    by destruct (split sep s).
Qed.

(** The empty part stands for the root: one zero length byte. *)
Lemma encode_part_root :
  encode_part [] = Some (Literal [(false, ascii_of_nat 0)]).
Proof. reflexivity. Qed.

Lemma close_snoc run bytes :
  bytes ≠ [] → close (run ++ bytes) = [CompareRun (run ++ bytes)].
Proof. intros Hb. by destruct run, bytes. Qed.

(** A rule whose last label is literal merges into steps whose last is
    a comparison run ending with that label's bytes. *)
Lemma merge_from_literal_last bytes rule :
  bytes ≠ [] →
  ∀ run, ∃ steps run',
    merge_from run (rule ++ [Literal bytes])
    = steps ++ [CompareRun (run' ++ bytes)].
Proof.
  intros Hb. induction rule as [| [| b] rule IH]; intros run.
  - exists [], run. cbn [app merge_from]. by apply close_snoc.
  - destruct (IH []) as (steps & run' & Heq).
    exists (close run ++ SkipOneLabel :: steps), run'.
    cbn [app merge_from]. by rewrite Heq, <- (assoc_L (++)).
  - destruct (IH (run ++ b)) as (steps & run' & Heq).
    exists steps, run'. done.
Qed.

(** The tokenizer returns a rule when every part is short enough for
    [chr]. *)
Lemma tokenize_total (domain : str) :
  Forall (λ part : str, (length part < 256)%nat) (split dot (normalize domain)) →
  is_Some (tokenize domain).
Proof.
  intros Hparts. apply mapM_is_Some_2.
  eapply Forall_impl; [exact Hparts |].
  intros part Hlen. unfold compose, encode_part.
  destruct (decide (part = star)); [done |].
  unfold chr. apply Nat.ltb_lt in Hlen. by rewrite Hlen.
Qed.

End tokenizer.

(** C10. Every normalized domain splits into parts of which the last is
    empty. Whenever the tokenizer returns a rule, the rule ends with the
    literal root label, a single zero length byte; hence the merged steps
    end with a comparison run whose last byte is that zero byte, never with
    a wildcard step, and the last step of the pattern block is printed by
    [match_exact] with [last] set, without cursor advance. *)
Theorem root_label_last o (i : nat) (domain : str) :
  (∃ parts, split dot (normalize domain) = parts ++ [[]])
  ∧ ∀ rule : list label,
      tokenize domain = Some rule →
      ∃ labels steps run,
        rule = labels ++ [Literal [(false, ascii_of_nat 0)]]
        ∧ merge rule = steps ++ [CompareRun (run ++ [(false, ascii_of_nat 0)])]
        ∧ last (merge rule) ≠ Some SkipOneLabel
        ∧ concat (imap (emit_step o i (length (merge rule))) (merge rule))
          = concat (imap (emit_step o i (length (merge rule))) steps)
            ++ match_exact (ignorecase o) (run ++ [(false, ascii_of_nat 0)])
                 (lb (i + 1)) true.
Proof.
  unfold tokenize, normalize. rewrite split_snoc. split; [by eexists |].
  intros rule Hrule%mapM_Some_1.
  apply Forall2_app_inv_l in Hrule as (labels & root & _ & Hroot & ->).
  apply Forall2_cons_inv_l in Hroot as (r & nil & Hr & Hnil & ->).
  apply Forall2_nil_inv_l in Hnil as ->.
  rewrite encode_part_root in Hr. injection Hr as <-.
  destruct (merge_from_literal_last [(false, ascii_of_nat 0)] labels
              ltac:(done) []) as (steps & run & Hmerge).
  fold (merge (labels ++ [Literal [(false, ascii_of_nat 0)]])) in Hmerge.
  exists labels, steps, run. rewrite Hmerge. split_and!; [done | done | |].
  - by rewrite last_snoc.
  - rewrite imap_app, concat_app. f_equal. cbn. rewrite app_nil_r.
    rewrite length_app, Nat.add_0_r. cbn [length].
    rewrite bool_decide_eq_true_2 by lia. done.
Qed.

(** ** Worked listings *)

Section examples.

Example fint_tokenize :
  mapM tokenize fint_args
  = Some [ [ Literal ((false, "004"%char)
                      :: ((λ c, (true, c)) <$> of_string "fin?"));
             Literal ((false, "002"%char)
                      :: ((λ c, (true, c)) <$> of_string "me"));
             Literal [(false, "000"%char)] ];
           [ Wildcard;
             Literal ((false, "001"%char)
                      :: ((λ c, (true, c)) <$> of_string "a"));
             Literal [(false, "000"%char)] ] ].
Proof. reflexivity. Qed.

Example fint_merge : fmap merge <$> mapM tokenize fint_args = Some fint_rules.
Proof. reflexivity. Qed.

Example fint_program : program default_options fint_rules = Some fint_listing.
Proof. vm_compute. reflexivity. Qed.

Example fint_main : main default_options fint_args = inr fint_listing.
Proof. vm_compute. reflexivity. Qed.

Example fint_text :
  render_listing fint_listing =
"    ldx 4*([14]&0xf)
    ; l3_off(14) + 8 of udp + 12 of dns
    ld #34
    add x
    tax
    ; a = x = M[0] = offset of first dns query byte
    st M[0]

lb_0:
    ; ldx M[0]
    ; Match: 0466696e3f026d6500 '\x04fin?\x02me\x00'  mask=00000000ff00000000
    ld [x + 0]
    jneq #0x0466696e, lb_1
    ld [x + 4]
    or #0xff000000
    jneq #0xff026d65, lb_1
    ldb [x + 8]
    jneq #0x00, lb_1
    ret #1

lb_1:
    ldx M[0]
    ; Match: *
    ldb [x + 0]
    add x
    add #1
    tax
    ; Match: 016100 '\x01a\x00'  mask=000000
    ldh [x + 0]
    jneq #0x0161, lb_2
    ldb [x + 2]
    jneq #0x00, lb_2
    ret #1

lb_2:
    ret #0
".
Proof. vm_compute. reflexivity. Qed.

Example inet6_main : main inet6_options [of_string "a-b"] = inr inet6_listing.
Proof. vm_compute. reflexivity. Qed.

Example main_no_domain : main default_options [] = inl NoDomain.
Proof. reflexivity. Qed.

(** A part of 256 bytes: [chr] raises. *)
Example main_chr_range :
  main default_options [replicate 256 "a"%char] = inl ChrOutOfRange.
Proof. vm_compute. reflexivity. Qed.

(** The built-ins on the inputs of the usage text. *)
Example strip_dots :
  strip (Ascii.eqb dot) (of_string ".example.com.") = of_string "example.com".
Proof. reflexivity. Qed.

Example strip_whitespace :
  strip isspace (" "%char :: ascii_of_nat 9 :: of_string "fint.me  ")
  = of_string "fint.me".
Proof. reflexivity. Qed.

Example split_parts :
  split dot (of_string "xxx.*..com.")
  = [of_string "xxx"; of_string "*"; []; of_string "com"; []].
Proof. reflexivity. Qed.

Example unpack_word : unpack (of_string "fint") = 0x66696e74.
Proof. reflexivity. Qed.

(** A star inside a longer part is a literal character. *)
Example literal_star :
  encode_part (of_string "*xxx")
  = Some (Literal ((false, "004"%char)
                   :: ((λ c, (true, c)) <$> of_string "*xxx"))).
Proof. reflexivity. Qed.

(** Leading and trailing dots are ignored. *)
Example dots_ignored :
  tokenize (of_string ".example.com.") = tokenize (of_string "example.com").
Proof. reflexivity. Qed.

End examples.

(** ** Normalization order *)

(** C6. The code strips dots before whitespace. On [' example.com. '] the
    dot inside the whitespace survives, so the domain splits into four
    parts, two of them empty, where ['example.com'] splits into three; the
    order the specification gives would make the two inputs agree. *)
Theorem strip_order_failing_input :
  let padded := of_string " example.com. " in
  let plain := of_string "example.com" in
  normalize padded = of_string "example.com.."
  ∧ normalize plain = of_string "example.com."
  ∧ spec_normalize padded = normalize plain
  ∧ split dot (normalize padded)
    = [of_string "example"; of_string "com"; []; []]
  ∧ split dot (normalize plain) = [of_string "example"; of_string "com"; []]
  ∧ tokenize padded ≠ tokenize plain
  ∧ (merge <$> tokenize padded)
    = Some [CompareRun
              ([(false, "007"%char)]
               ++ ((λ c, (true, c)) <$> of_string "example")
               ++ [(false, "003"%char)]
               ++ ((λ c, (true, c)) <$> of_string "com")
               ++ [(false, "000"%char); (false, "000"%char)])]
  ∧ (merge <$> tokenize plain)
    = Some [CompareRun
              ([(false, "007"%char)]
               ++ ((λ c, (true, c)) <$> of_string "example")
               ++ [(false, "003"%char)]
               ++ ((λ c, (true, c)) <$> of_string "com")
               ++ [(false, "000"%char)])].
Proof. split_and!; done. Qed.

(** ** Instances *)

(** C4, as stated, fails: with two patterns, [a] and [b], the line behind
    the label of block [P0] is the comment, not the reload. *)
Lemma reload_in_first_block_counterexample :
  (∃ p, main default_options [of_string "a"; of_string "b"] = inr p
        ∧ p !! 8%nat = Some (Label (lb 0))
        ∧ p !! 9%nat = Some (Comment "ldx M[0]"))
  ∧ ¬ (∀ o (rs : list (list step)) (p : list line),
         program o rs = Some p →
         (1 < length rs)%nat →
         ∀ (i : nat) rules,
           rs !! i = Some rules →
           pattern_block o i rules !! 1%nat = Some (Insn ldx_M0)).
Proof.
  split.
  - eexists. split; [vm_compute; reflexivity | done].
  - intros Hall.
    specialize (Hall default_options fint_rules fint_listing fint_program
                  ltac:(cbn; lia) 0%nat _ eq_refl).
    discriminate Hall.
Qed.

Lemma comparison_mask_witness :
  (encode_part (of_string "com") = Some (Literal com_rule)
   ∧ "?"%char ∉ of_string "com")
  ∧ mask_of true [(true, "?"%char); (true, "a"%char)] !! 0%nat
    = Some (ascii_of_nat 255)
  ∧ mask_of false com_rule = replicate 4 (ascii_of_nat 0)
  ∧ compared_bytes (match_exact false com_rule "lb_1" true)
    = "003"%char :: of_string "com".
Proof.
  assert (encode_part (of_string "com") = Some (Literal com_rule)) as Henc
    by reflexivity.
  assert ("?"%char ∉ of_string "com") as Hq.
  { cbn. rewrite !not_elem_of_cons. split_and!; [done .. |].
    apply not_elem_of_nil. }
  destruct comparison_mask as (Hbyte & Hrun & Hlabel).
  destruct (Hlabel (of_string "com") com_rule Henc Hq) as (_ & Hchars).
  destruct (Hrun com_rule "lb_1" true Hchars) as (Hmask & _ & Hcmp).
  split; [done |]. split.
  - apply (Hbyte true [(true, "?"%char); (true, "a"%char)] 0%nat true "?"%char).
    reflexivity.
  - split; [exact Hmask | exact Hcmp].
Defined.

Lemma branches_forward_witness :
  program default_options fint_rules = Some fint_listing
  ∧ ∃ pos' : nat,
      (15 < pos')%nat
      ∧ fint_listing !! pos' = Some (Label "lb_1")
      ∧ ∀ pos'' : nat,
          fint_listing !! pos'' = Some (Label "lb_1") → pos'' = pos'.
Proof.
  split; [exact fint_program |].
  destruct (branches_forward default_options fint_rules fint_listing
              fint_program) as (_ & _ & Hpos).
  apply (Hpos 15%nat Word 0xff026d65 "lb_1"). reflexivity.
Defined.

Lemma reload_after_first_block_witness :
  (program default_options fint_rules = Some fint_listing
   ∧ fint_rules !! 1%nat
     = Some [SkipOneLabel;
             CompareRun [(false, "001"%char); (true, "a"%char);
                         (false, "000"%char)]])
  ∧ count ldx_M0 fint_listing = 1%nat.
Proof.
  split; [split; [exact fint_program | reflexivity] |].
  destruct (reload_after_first_block default_options fint_rules fint_listing
              1%nat _ fint_program eq_refl) as (_ & _ & _ & Hcount).
  exact Hcount.
Defined.

Lemma scratch_store_reload_witness :
  program default_options fint_rules = Some fint_listing
  ∧ (1 < length fint_rules)%nat
  ∧ count st_M0 fint_listing = 1%nat.
Proof.
  split; [exact fint_program |].
  assert (1 < length fint_rules)%nat as Hn by (cbn; lia).
  split; [exact Hn |].
  destruct (scratch_store_reload default_options fint_rules fint_listing
              fint_program) as (_ & Hmany).
  destruct (Hmany Hn) as (Hst & _). exact Hst.
Defined.

Lemma query_offset_witness :
  program default_options fint_rules = Some fint_listing
  ∧ ∃ rest,
      insns fint_listing
      = [ldx_msh 14; ld_imm (14 + 8 + 12); add_x; tax] ++ insns rest
      ∧ fint_listing = offset_code default_options ++ [Insn tax] ++ rest.
Proof.
  split; [exact fint_program |].
  exact (query_offset default_options fint_rules fint_listing fint_program).
Defined.

Lemma ret_verdicts_witness :
  program default_options fint_rules = Some fint_listing
  ∧ rets fint_listing = [1; 1; 0].
Proof.
  split; [exact fint_program |].
  destruct (ret_verdicts default_options fint_rules fint_listing fint_program)
    as (Hrets & _).
  exact Hrets.
Defined.

Lemma root_label_last_witness :
  tokenize (of_string "*") = Some [Wildcard; Literal [(false, "000"%char)]]
  ∧ last (merge [Wildcard; Literal [(false, "000"%char)]]) ≠ Some SkipOneLabel.
Proof.
  split; [reflexivity |].
  destruct (root_label_last default_options 0 (of_string "*")) as (_ & Hrule).
  destruct (Hrule [Wildcard; Literal [(false, "000"%char)]] eq_refl)
    as (labels & steps & run & _ & _ & Hlast & _).
  exact Hlast.
Defined.

Lemma wildcard_step_witness :
  emit_step default_options 1 2 0 SkipOneLabel = match_star
  ∧ Insn (jneq Byte 0 "lb_2") ∉ match_star.
Proof.
  destruct (wildcard_step default_options 1 2 0) as (Hstep & _ & Hjneq & _).
  split; [exact Hstep | exact (Hjneq Byte 0 "lb_2")].
Defined.

(** ** Normalization and tokenizing *)

Section normalization.

Lemma lstrip_replicate p c k (s : str) :
  p c = true → lstrip p (replicate k c ++ s) = lstrip p s.
Proof. intros Hc. induction k as [| k IH]; [done |]. cbn. by rewrite Hc. Qed.

Lemma lstrip_app p (s e : str) :
  lstrip p (s ++ e) = match lstrip p s with
                      | [] => lstrip p e
                      | _ => lstrip p s ++ e
                      end.
Proof.
  induction s as [| c s IH]; cbn; [by destruct (lstrip p e) |].
  by destruct (p c).
Qed.

Lemma rev_replicate {A} k (c : A) : rev (replicate k c) = replicate k c.
Proof.
  induction k as [| k IH]; [done |].
  cbn. by rewrite IH, <- replicate_S_end.
Qed.

Lemma rstrip_replicate p c k (s : str) :
  p c = true → rstrip p (s ++ replicate k c) = rstrip p s.
Proof.
  intros Hc. unfold rstrip.
  by rewrite rev_app_distr, rev_replicate, lstrip_replicate.
Qed.

Lemma rstrip_all p c k : p c = true → rstrip p (replicate k c) = [].
Proof.
  intros Hc. unfold rstrip. rewrite rev_replicate.
  rewrite <- (app_nil_r (replicate k c)). by rewrite lstrip_replicate.
Qed.

Lemma strip_replicate p c k m (s : str) :
  p c = true → strip p (replicate k c ++ s ++ replicate m c) = strip p s.
Proof.
  intros Hc. unfold strip. rewrite lstrip_replicate, lstrip_app by done.
  destruct (lstrip p s) as [| x s'] eqn:Hs.
  - rewrite <- (app_nil_r (replicate m c)), lstrip_replicate by done.
    done.
  - by rewrite rstrip_replicate.
Qed.

Lemma join_split sep (s : str) : join sep (split sep s) = s.
Proof.
  induction s as [| c s IH]; [done |]. cbn [split].
  pose proof (split_not_nil sep s) as Hne.
  destruct (Ascii.eqb_spec c sep) as [-> | Hc].
  - cbn [join]. destruct (split sep s) as [| q qs]; [done |].
    by rewrite IH.
  - destruct (split sep s) as [| q qs]; [done |].
    cbn [join] in *. destruct qs; by rewrite <- IH.
Qed.

Lemma part_of_encode_part part l : encode_part part = Some l → part_of l = part.
Proof.
  unfold encode_part. destruct (decide (part = star)) as [-> | _].
  - by intros [= <-].
  - destruct (chr (length part)); [| done]. intros [= <-].
    unfold part_of. change (drop 1 (?x :: ?l)) with l.
    rewrite <- list_fmap_compose. apply list_fmap_id.
Qed.

Lemma part_of_encode_parts parts rule :
  Forall2 (λ part l, encode_part part = Some l) parts rule →
  part_of <$> rule = parts.
Proof.
  induction 1 as [| part l parts rule Hl _ IH]; [done |].
  cbn. by rewrite IH, (part_of_encode_part part l).
Qed.

Lemma encode_part_None part :
  encode_part part = None ↔ (256 ≤ length part)%nat.
Proof.
  unfold encode_part, chr. destruct (decide (part = star)) as [-> | _].
  - cbn. split; [done | lia].
  - destruct (Nat.ltb_spec (length part) 256); cbn; split; (done || lia).
Qed.

Lemma tokenize_None domain : tokenize domain = None ↔ long_part domain.
Proof.
  unfold tokenize, long_part. rewrite mapM_None.
  split; intros Hex; (eapply Exists_impl; [exact Hex |]);
    intros part; apply encode_part_None.
Qed.

End normalization.

(** X1. Dots before and behind a domain do not change what it normalizes
    to, however many there are. *)
Theorem outer_dots_ignored (k m : nat) (domain : str) :
  normalize (replicate k dot ++ domain ++ replicate m dot) = normalize domain
  ∧ tokenize (replicate k dot ++ domain ++ replicate m dot) = tokenize domain.
Proof.
  assert (normalize (replicate k dot ++ domain ++ replicate m dot)
          = normalize domain) as Hn.
  { unfold normalize. by rewrite strip_replicate. }
  split; [done |]. unfold tokenize. by rewrite Hn.
Qed.

(** X2. The tokenizer stops with the error of [chr] exactly when a part of
    the normalized domain has 256 bytes or more; otherwise it returns one
    label per part. *)
Theorem tokenize_fails_on_long_part (domain : str) :
  (tokenize domain = None ↔ long_part domain)
  ∧ ∀ rule, tokenize domain = Some rule →
      length rule = length (split dot (normalize domain)).
Proof.
  split; [apply tokenize_None |].
  intros rule Hrule%mapM_Some_1. symmetry. by eapply Forall2_length.
Qed.

(** X3. Tokenizing loses nothing: the parts the labels were built from,
    joined by dots, are the normalized domain, and a label is the wildcard
    exactly when its part is a lone star. *)
Theorem tokenize_round_trip (domain : str) (rule : list label) :
  tokenize domain = Some rule →
  join dot (part_of <$> rule) = normalize domain
  ∧ ∀ (k : nat) l, rule !! k = Some l → (l = Wildcard ↔ part_of l = star).
Proof.
  unfold tokenize. intros Hrule%mapM_Some_1. split.
  - by rewrite (part_of_encode_parts _ _ Hrule), join_split.
  - intros k l Hk.
    destruct (Forall2_lookup_r _ _ _ _ _ Hrule Hk) as (part & _ & Hl).
    split; [by intros -> |]. intros Hstar.
    rewrite (part_of_encode_part part l Hl) in Hstar. subst part.
    cbv in Hl. by injection Hl as <-.
Qed.

(** X4. [main] stops before printing in two cases only: without a domain,
    and with a domain that has a part of 256 bytes or more. In every other
    case it prints a listing. *)
Theorem main_outcomes o (args : list str) :
  (main o args = inl NoDomain ↔ args = [])
  ∧ (main o args = inl ChrOutOfRange ↔ args ≠ [] ∧ Exists long_part args)
  ∧ main o args ≠ inl Unbound
  ∧ (args ≠ [] → ¬ Exists long_part args → ∃ listing, main o args = inr listing).
Proof.
  destruct args as [| d ds].
  { split_and!; try done. split; [done | by intros []]. }
  unfold main.
  destruct (mapM tokenize (d :: ds)) as [rules |] eqn:Hrules.
  - assert (¬ Exists long_part (d :: ds)) as Hshort.
    { intros Hlong. apply Exists_exists in Hlong as (x & Hx & Hlong).
      apply tokenize_None in Hlong.
      assert (mapM tokenize (d :: ds) = None) as Hnone.
      { apply mapM_None. apply Exists_exists. eauto. }
      congruence. }
    assert (merge <$> rules ≠ []) as Hne.
    { apply mapM_Some_1, Forall2_length in Hrules.
      destruct rules; [done | done]. }
    destruct (program_total o (merge <$> rules) Hne) as [p Hp].
    rewrite Hp. split_and!; try done.
    + split; [done | by intros [_ ?]].
    + intros _ _. by exists p.
  - assert (Exists long_part (d :: ds)) as Hlong.
    { apply mapM_None in Hrules. eapply Exists_impl; [exact Hrules |].
      intros x. apply tokenize_None. }
    split_and!; try done.
Qed.

(** ** How the options act on the listing *)

Section option_effects.

Lemma swap_ret_step_lines target ls :
  Forall (step_line target) ls → swap_ret <$> ls = ls.
Proof.
  induction 1 as [| l ls Hl _ IH]; [done |].
  cbn. rewrite IH. f_equal. by destruct l as [[] | | |].
Qed.

Lemma swap_ret_pattern_block o i rules :
  swap_ret <$> pattern_block o i rules
  = pattern_block (with_negate (negb (negate o)) o) i rules.
Proof.
  unfold pattern_block.
  change (Label ?a :: ?b :: ?l) with ([Label a; b] ++ l).
  rewrite !fmap_app, (swap_ret_step_lines _ _ (steps_step_lines o i rules)).
  f_equal; [by case_decide |]. f_equal. cbn. by destruct (negate o).
Qed.

Lemma swap_ret_blocks_from o rs :
  ∀ i, swap_ret <$> blocks_from o i rs
       = blocks_from (with_negate (negb (negate o)) o) i rs.
Proof.
  induction rs as [| r rs IH]; intros i; [done |].
  cbn [blocks_from]. by rewrite fmap_app, swap_ret_pattern_block, IH.
Qed.

Lemma swap_ret_prologue o rs :
  swap_ret <$> prologue o rs = prologue (with_negate (negb (negate o)) o) rs.
Proof.
  unfold prologue, offset_code. cbn [ipversion l3_off with_negate].
  destruct (ipversion o); by case_decide.
Qed.

Lemma pattern_block_ext o o' i rules :
  ignorecase o' = ignorecase o → negate o' = negate o →
  pattern_block o' i rules = pattern_block o i rules.
Proof.
  intros Hic Hneg. unfold pattern_block. rewrite Hneg. do 4 f_equal.
  apply imap_ext. intros j rule _. unfold emit_step. by rewrite Hic.
Qed.

Lemma blocks_from_ext o o' rs :
  ignorecase o' = ignorecase o → negate o' = negate o →
  ∀ i, blocks_from o' i rs = blocks_from o i rs.
Proof.
  intros Hic Hneg. induction rs as [| r rs IH]; intros i; [done |].
  cbn [blocks_from]. by rewrite IH, (pattern_block_ext o o').
Qed.

Lemma emit_step_not_last o i len j rule :
  (S j < len)%nat → emit_step o i len j rule = step_with o i false rule.
Proof.
  intros Hj. unfold emit_step, step_with.
  by rewrite bool_decide_eq_false_2 by lia.
Qed.

Lemma emit_step_last o i len j rule :
  len = S j → emit_step o i len j rule = step_with o i true rule.
Proof.
  intros ->. unfold emit_step, step_with.
  by rewrite bool_decide_eq_true_2 by lia.
Qed.

End option_effects.

(** X5. Negating the rule changes nothing in the listing but the two
    verdicts, which are exchanged. *)
Theorem negate_swaps_verdicts o (rs : list (list step)) :
  program (with_negate (negb (negate o)) o) rs
  = (λ p : list line, swap_ret <$> p) <$> program o rs.
Proof.
  destruct rs as [| r rs]; [done |].
  destruct (program_total o (r :: rs) ltac:(done)) as [p Hp].
  destruct (program_total (with_negate (negb (negate o)) o) (r :: rs)
              ltac:(done)) as [p' Hp'].
  rewrite Hp, Hp'. cbn [fmap option_fmap option_map]. f_equal.
  apply program_layout in Hp as [_ ->]. apply program_layout in Hp' as [_ ->].
  rewrite !fmap_app, swap_ret_prologue, swap_ret_blocks_from.
  do 2 f_equal. cbn. by destruct (negate o).
Qed.

(** X6. The link-layer offset and the IP version reach the listing only
    through the offset computation at its head: two compilations that agree
    on the case and negation settings print the same lines behind it. *)
Theorem header_options_local o o' (rs : list (list step)) (p : list line) :
  ignorecase o' = ignorecase o →
  negate o' = negate o →
  program o rs = Some p →
  program o' rs = Some (offset_code o' ++ drop (length (offset_code o)) p).
Proof.
  intros Hic Hneg Hp. destruct (program_layout o rs p Hp) as [Hrs ->].
  destruct (program_total o' rs Hrs) as [p' Hp'].
  rewrite Hp'. f_equal. apply program_layout in Hp' as [_ ->].
  unfold prologue. rewrite <- !(assoc_L (++)), drop_app_length.
  by rewrite (blocks_from_ext o o'), Hneg.
Qed.

(** X7. In a pattern block every step but the last is printed with its
    cursor advance, and the last one without: the block is its label, the
    reload or its comment, the steps with [last] false, the final step with
    [last] true, the accepting [ret], an empty line. *)
Theorem block_steps o (i : nat) (steps : list step) (final : step) :
  pattern_block o i (steps ++ [final])
  = [Label (lb i);
     if decide (i ≠ 0%nat) then Insn ldx_M0 else Comment "ldx M[0]"]
    ++ concat (step_with o i false <$> steps)
    ++ step_with o i true final
    ++ [Insn (ret (if negb (negate o) then 1 else 0)); Blank].
Proof.
  unfold pattern_block. cbn [app]. do 2 f_equal.
  rewrite imap_app, concat_app, <- (assoc_L (++)). f_equal.
  - f_equal. rewrite <- imap_const. apply imap_ext. intros j rule Hj.
    apply emit_step_not_last. apply lookup_lt_Some in Hj.
    rewrite length_app. cbn. lia.
  - cbn. rewrite app_nil_r. f_equal. apply emit_step_last.
    rewrite length_app. cbn. lia.
Qed.

(** X8. A listing [main] prints declares one label per domain argument and
    one for the reject block, [lb_0] to [lb_n] in this order, and no label
    twice. *)
Theorem main_labels o (args : list str) (p : list line) :
  main o args = inr p →
  labels p = lb <$> seq 0 (S (length args)) ∧ NoDup (labels p).
Proof.
  unfold main. destruct args as [| d ds]; [done |].
  destruct (mapM tokenize (d :: ds)) as [rules |] eqn:Hrules; [| done].
  destruct (program o (merge <$> rules)) as [p' |] eqn:Hp; [| done].
  intros [= <-]. rewrite (labels_program o _ p' Hp), length_fmap.
  apply mapM_Some_1, Forall2_length in Hrules. rewrite <- Hrules.
  split; [done |]. apply NoDup_fmap_2; [apply _ | apply NoDup_seq].
Qed.

(** ** The printed text of a label *)

Section label_text.

Lemma append_colon_inj s1 s2 : s1 +:+ ":" = s2 +:+ ":" → s1 = s2.
Proof.
  revert s2. induction s1 as [| c s1 IH]; intros [| c' s2] Heq; cbn in Heq.
  - done.
  - injection Heq as _ Heq. by destruct s2.
  - injection Heq as _ Heq. by destruct s1.
  - injection Heq as -> Heq. f_equal. by apply IH.
Qed.

End label_text.

(** X13. In the printed text, a line reads as the declaration of label
    [lb_i] only if it is that declaration: no instruction, comment or empty
    line prints the same characters, and labels of different blocks print
    differently. *)
Theorem label_line_unambiguous (l : line) (i : nat) :
  render l = render (Label (lb i)) → l = Label (lb i).
Proof.
  destruct l as [ins | text | name |]; cbn [render].
  - intros Heq. cbv [lb String.append] in Heq. discriminate Heq.
  - intros Heq. cbv [lb String.append] in Heq. discriminate Heq.
  - intros Heq%append_colon_inj. by rewrite Heq.
  - intros Heq. cbv [lb String.append] in Heq. discriminate Heq.
Qed.

(** ** Bytes, loads and constants of a comparison run *)

Section run_bytes.

Lemma lor_bound a b n :
  0 ≤ n → 0 ≤ a < 2 ^ n → 0 ≤ b < 2 ^ n → 0 ≤ Z.lor a b < 2 ^ n.
Proof.
  intros Hn Ha Hb. split; [apply Z.lor_nonneg; lia |].
  destruct (decide (Z.lor a b = 0)) as [-> | Hne]; [lia |].
  assert (0 ≤ Z.lor a b) by (apply Z.lor_nonneg; lia).
  apply Z.log2_lt_pow2; [lia |]. rewrite Z.log2_lor by lia.
  assert (∀ c, 0 ≤ c < 2 ^ n → 0 < n → Z.log2 c < n) as Hlog.
  { intros c Hc Hpos. destruct (decide (c = 0)) as [-> | ?]; [done |].
    apply Z.log2_lt_pow2; lia. }
  assert (0 < n).
  { destruct (decide (n = 0)) as [-> | ?]; [| lia].
    assert (a = 0) as -> by lia. assert (b = 0) as -> by lia. done. }
  apply Z.max_lub_lt; by apply Hlog.
Qed.

Lemma unpack_bound (m : str) : 0 ≤ unpack m < 2 ^ (8 * Z.of_nat (length m)).
Proof.
  induction m as [| c m IH] using rev_ind; [done |].
  rewrite unpack_snoc, length_app, Nat.add_1_r, Nat2Z.inj_succ.
  pose proof (ord_range c).
  replace (8 * Z.succ (Z.of_nat (length m)))
    with (8 * Z.of_nat (length m) + 8) by lia.
  assert (0 < 2 ^ (8 * Z.of_nat (length m))) by (apply Z.pow_pos_nonneg; lia).
  apply lor_bound; [lia | |].
  - rewrite Z.shiftl_mul_pow2, Z.pow_add_r by lia. nia.
  - rewrite Z.pow_add_r by lia. nia.
Qed.

Lemma unpack_bound_le (m : str) n :
  (length m ≤ n)%nat → 0 ≤ unpack m < 2 ^ (8 * Z.of_nat n).
Proof.
  intros Hn. pose proof (unpack_bound m) as [? ?]. split; [done |].
  eapply Z.lt_le_trans; [done |]. apply Z.pow_le_mono_r; lia.
Qed.

Lemma ord_byte_or a b : ord (byte_or a b) = Z.lor (ord a) (ord b).
Proof.
  unfold byte_or, ord. rewrite N_ascii_embedding; [apply N2Z.inj_lor |].
  pose proof (lor_bound (ord a) (ord b) 8 ltac:(lia)
                (ord_range a) (ord_range b)) as Hb.
  unfold ord in Hb. rewrite <- N2Z.inj_lor in Hb. lia.
Qed.

Lemma unpack_from_lor (xs ys : str) :
  length xs = length ys →
  ∀ a b,
    Z.lor (fold_left (λ acc c, Z.lor (Z.shiftl acc 8) (ord c)) xs a)
          (fold_left (λ acc c, Z.lor (Z.shiftl acc 8) (ord c)) ys b)
    = fold_left (λ acc c, Z.lor (Z.shiftl acc 8) (ord c))
        (zip_with byte_or xs ys) (Z.lor a b).
Proof.
  revert ys. induction xs as [| x xs IH]; intros [| y ys] Hlen a b;
    [done | done | done |].
  cbn. rewrite IH by (cbn in Hlen; lia).
  f_equal. rewrite ord_byte_or, Z.shiftl_lor.
  rewrite <- !Z.lor_assoc. f_equal.
  rewrite !Z.lor_assoc. f_equal. apply Z.lor_comm.
Qed.

(** Or-ing two packed chunks is packing the chunk of or-ed bytes. *)
Lemma unpack_lor (xs ys : str) :
  length xs = length ys →
  Z.lor (unpack xs) (unpack ys) = unpack (zip_with byte_or xs ys).
Proof. intros Hlen. by apply (unpack_from_lor xs ys Hlen 0 0). Qed.

Lemma spec_compare_bytes target ws (s mask : str) off :
  length mask = length s →
  (off + width_sum ws ≤ length s)%nat →
  compared_bytes (spec_compare target ws s mask off)
  = take (width_sum ws) (drop off (zip_with byte_or s mask)).
Proof.
  intros Hmask. revert off. induction ws as [| w ws IH]; intros off Hlen;
    [done |].
  rewrite width_sum_cons in *. cbn [spec_compare].
  rewrite !compared_bytes_app, IH by lia.
  assert (compared_bytes
            (if decide (unpack (take (bytes_of w) (drop off mask)) ≠ 0)
             then [Insn (or_imm w (unpack (take (bytes_of w) (drop off mask))))]
             else []) = []) as -> by (by case_decide).
  cbn. rewrite app_nil_r.
  rewrite unpack_lor by (rewrite !length_take, !length_drop; lia).
  rewrite <- zip_with_take, <- zip_with_drop.
  set (z := zip_with byte_or s mask).
  assert (length z = length s) as Hz
    by (unfold z; rewrite length_zip_with; lia).
  replace (bytes_of w) with (length (take (bytes_of w) (drop off z))) at 1
    by (rewrite length_take, length_drop; lia).
  by rewrite be_bytes_unpack, <- drop_drop, take_take_drop.
Qed.

Lemma spec_compare_loads target ws (s mask : str) off :
  tiles (Z.of_nat off) (omap loaded (spec_compare target ws s mask off))
    (Z.of_nat (off + width_sum ws)).
Proof.
  revert off. induction ws as [| w ws IH]; intros off.
  - cbn. f_equal. unfold width_sum. cbn. lia.
  - rewrite width_sum_cons. cbn [spec_compare].
    rewrite !omap_app.
    assert (omap loaded
              (if decide (unpack (take (bytes_of w) (drop off mask)) ≠ 0)
               then [Insn (or_imm w (unpack (take (bytes_of w) (drop off mask))))]
               else []) = []) as -> by (by case_decide).
    cbn. split_and!; [done | destruct w; cbn; lia |].
    specialize (IH (off + bytes_of w)%nat).
    rewrite <- Nat2Z.inj_add. by rewrite (assoc_L Nat.add).
Qed.

Lemma spec_compare_constants target ws (s mask : str) off l w k :
  l ∈ spec_compare target ws s mask off →
  constant l = Some (w, k) →
  0 ≤ k < 2 ^ (8 * Z.of_nat (bytes_of w)).
Proof.
  revert off. induction ws as [| w' ws IH]; intros off; [by intros ?%elem_of_nil |].
  cbn [spec_compare]. rewrite !elem_of_app.
  assert (∀ x : str, 0 ≤ unpack (take (bytes_of w') x)
                     < 2 ^ (8 * Z.of_nat (bytes_of w'))) as Hb.
  { intros x. apply unpack_bound_le. rewrite length_take. lia. }
  intros [Hl | [Hl | [Hl | Hl]]] Hc.
  - apply list_elem_of_singleton in Hl as ->. done.
  - case_decide; [| by apply elem_of_nil in Hl].
    apply list_elem_of_singleton in Hl as ->. injection Hc as <- <-. apply Hb.
  - apply list_elem_of_singleton in Hl as ->. injection Hc as <- <-.
    apply lor_bound; [lia | apply Hb ..].
  - by eapply IH.
Qed.

Lemma lower_keeps_wildcard c : Ascii.eqb (lower c) "?" = Ascii.eqb c "?".
Proof. destruct c as [[] [] [] [] [] [] [] []]; reflexivity. Qed.

Lemma lower_under_case_bit c :
  byte_or (lower c) (ascii_of_nat 32) = byte_or c (ascii_of_nat 32).
Proof. destruct c as [[] [] [] [] [] [] [] []]; reflexivity. Qed.

Lemma mask_of_lower_rule rule : mask_of true (lower_rule rule) = mask_of true rule.
Proof.
  unfold mask_of, lower_rule. rewrite <- list_fmap_compose.
  apply list_fmap_ext. intros _ [[] b] _; [| done].
  cbn. by rewrite lower_keeps_wildcard.
Qed.

Lemma bytes_or_mask_lower_rule rule :
  zip_with byte_or (bytes_of_rule (lower_rule rule)) (mask_of true rule)
  = zip_with byte_or (bytes_of_rule rule) (mask_of true rule).
Proof.
  unfold bytes_of_rule, mask_of, lower_rule.
  induction rule as [| [[] b] rule IH]; [done | |]; cbn; rewrite IH; [| done].
  f_equal. destruct (Ascii.eqb b "?") eqn:Hq.
  - apply Ascii.eqb_eq in Hq as ->. done.
  - apply lower_under_case_bit.
Qed.

(** The lines of the chunks depend on the run only through its bytes or-ed
    with the mask. *)
Lemma spec_compare_or_mask target ws (s s' mask : str) :
  length s = length mask → length s' = length mask →
  zip_with byte_or s mask = zip_with byte_or s' mask →
  ∀ off, spec_compare target ws s mask off = spec_compare target ws s' mask off.
Proof.
  intros Hs Hs' Hor. induction ws as [| w ws IH]; intros off; [done |].
  cbn [spec_compare]. rewrite IH. do 3 f_equal.
  rewrite !unpack_lor by (by rewrite !length_take, !length_drop, ?Hs, ?Hs').
  by rewrite <- !zip_with_take, <- !zip_with_drop, Hor.
Qed.

End run_bytes.

(** X9. The loads of a comparison run cover the run without gap or overlap:
    their byte ranges follow one another from offset 0 to the length of the
    run, so every byte of the run is loaded, and compared, once. *)
Theorem loads_tile_run ic (rule : list encoded) target last :
  tiles 0 (omap loaded (match_exact ic rule target last))
    (Z.of_nat (length rule)).
Proof.
  rewrite match_exact_spec_compare. cbn [omap list_omap loaded].
  rewrite omap_app.
  assert (omap loaded
            (if last then []
             else [Insn txa; Insn (add_imm (Z.of_nat (length rule))); Insn tax])
          = []) as -> by (by destruct last).
  rewrite app_nil_r.
  pose proof (spec_compare_loads target (chunk_widths (length rule))
                (bytes_of_rule rule) (mask_of ic rule) 0) as Ht.
  by rewrite chunk_widths_sum in Ht.
Qed.

(** X10. Every constant of a comparison run, of an [or] as of a [jneq],
    fits the width of its load: it is not negative and below [2^32],
    [2^16] or [2^8]. *)
Theorem constants_fit_width ic (rule : list encoded) target last l w k :
  l ∈ match_exact ic rule target last →
  constant l = Some (w, k) →
  0 ≤ k < 2 ^ (8 * Z.of_nat (bytes_of w)).
Proof.
  rewrite match_exact_spec_compare, elem_of_cons, elem_of_app.
  intros [-> | [Hl | Hl]] Hc; [done | by eapply spec_compare_constants |].
  destruct last; [by apply elem_of_nil in Hl |].
  rewrite !elem_of_cons, elem_of_nil in Hl.
  by destruct Hl as [-> | [-> | [-> | []]]].
Qed.

(** X11. Byte for byte, the constants a comparison run is tested against
    are the bytes of the run or-ed with the mask: [0xff] at a [?], the
    character with bit [0x20] set when case is ignored, the byte itself
    otherwise. *)
Theorem compared_bytes_or_mask ic (rule : list encoded) target last :
  compared_bytes (match_exact ic rule target last)
  = zip_with byte_or (bytes_of_rule rule) (mask_of ic rule).
Proof.
  rewrite match_exact_spec_compare.
  change (Comment ?c :: ?l) with ([Comment c] ++ l).
  rewrite !compared_bytes_app, spec_compare_bytes.
  - rewrite chunk_widths_sum, drop_0, take_ge.
    + destruct last; cbn; by rewrite app_nil_r.
    + by rewrite length_zip_with, bytes_of_rule_length, mask_of_length,
        Nat.min_id.
  - by rewrite mask_of_length, bytes_of_rule_length.
  - by rewrite chunk_widths_sum, bytes_of_rule_length.
Qed.

(** X12. With case ignored, the case of the pattern's own letters does not
    matter: a run and the same run in lower case compile to the same
    instructions. *)
Theorem ignorecase_pattern_case (rule : list encoded) target last :
  insns (match_exact true (lower_rule rule) target last)
  = insns (match_exact true rule target last).
Proof.
  rewrite !match_exact_spec_compare. unfold insns. cbn [omap list_omap insn_of].
  assert (length (lower_rule rule) = length rule) as Hlen
    by apply length_fmap.
  rewrite Hlen, mask_of_lower_rule. do 2 f_equal.
  apply spec_compare_or_mask.
  - by rewrite bytes_of_rule_length, mask_of_length.
  - by rewrite bytes_of_rule_length, mask_of_length.
  - apply bytes_or_mask_lower_rule.
Qed.

(** ** The option loop *)

(** An option name known to be one of two spellings: take each. *)
Ltac concrete_name H :=
  rewrite !elem_of_cons, elem_of_nil in H; destruct H as [-> | [-> | []]].

Ltac eval_names :=
  repeat match goal with
    | |- context [bool_decide (?x ∈ ?l)] =>
        let b := eval vm_compute in (bool_decide (x ∈ l)) in
        replace (bool_decide (x ∈ l)) with b by (vm_compute; reflexivity)
    | |- context [decide (?x ∈ ?l)] =>
        destruct (decide (x ∈ l)) as [Hin | _];
        [try (rewrite !elem_of_cons, elem_of_nil in Hin;
              destruct Hin as [? | [? | []]]; discriminate) |]
    end.

Section option_loop.

Context (int : string → option Z).

Lemma handle_opts_app st pre post :
  handle_opts int st (pre ++ post)
  = match handle_opts int st pre with
    | inl h => inl h
    | inr st' => handle_opts int st' post
    end.
Proof.
  revert st. induction pre as [| oa pre IH]; intros st; [done |].
  cbn. destruct (handle_opt int st oa); [done | apply IH].
Qed.

Lemma handle_opt_effect st oa st' :
  handle_opt int st oa = inr st' →
  ignorecase st'.1
    = ignorecase st.1 || bool_decide (oa.1 ∈ ["-i"; "--ignore-case"])
  ∧ negate st'.1 = negate st.1 || bool_decide (oa.1 ∈ ["-n"; "--negate"])
  ∧ st'.2 = st.2 || bool_decide (oa.1 ∈ ["-s"; "--assembly"])
  ∧ ipversion st'.1
    = (if bool_decide (oa.1 ∈ ["-6"; "--inet6"]) then IPv6 else ipversion st.1)
  ∧ l3_off st'.1
    = (if decide (oa.1 ∈ ["-o"; "--offset"])
       then default (l3_off st.1) (int oa.2) else l3_off st.1).
Proof.
  destruct oa as [o a], st as [s assembly]. unfold handle_opt. cbn [fst snd].
  destruct (decide (o ∈ ["-h"; "--help"])) as [| _]; [done |].
  destruct (decide (o ∈ ["-i"; "--ignore-case"])) as [Hi | Hi].
  { intros [= <-]. concrete_name Hi; eval_names; cbn;
      by rewrite ?orb_true_r, ?orb_false_r. }
  destruct (decide (o ∈ ["-n"; "--negate"])) as [Hn | Hn].
  { intros [= <-]. concrete_name Hn; eval_names; cbn;
      by rewrite ?orb_true_r, ?orb_false_r. }
  destruct (decide (o ∈ ["-s"; "--assembly"])) as [Hs | Hs].
  { intros [= <-]. concrete_name Hs; eval_names; cbn;
      by rewrite ?orb_true_r, ?orb_false_r. }
  destruct (decide (o ∈ ["-o"; "--offset"])) as [Ho | Ho].
  { destruct (int a) as [n |]; [| done].
    intros [= <-]. concrete_name Ho; eval_names; cbn;
      by rewrite ?orb_true_r, ?orb_false_r. }
  destruct (decide (o ∈ ["-6"; "--inet6"])) as [H6 | H6]; [| done].
  intros [= <-]. rewrite !bool_decide_eq_false_2 by done.
  concrete_name H6; eval_names; cbn; by rewrite ?orb_true_r, ?orb_false_r.
Qed.

Lemma given_cons names oa opts :
  given names (oa :: opts) = bool_decide (oa.1 ∈ names) || given names opts.
Proof. reflexivity. Qed.

End option_loop.

(** X14. When the option loop runs to its end, a flag is on exactly if it
    was on before or one of its two spellings is among the options, in any
    order and however often; the IP version is 6 once [-6] is given; and the
    offset is the last one given, the earlier value when there is none. *)
Theorem options_accumulate (int : string → option Z) (st st' : settings)
    (opts : list (string * string)) :
  handle_opts int st opts = inr st' →
  ignorecase st'.1 = ignorecase st.1 || given ["-i"; "--ignore-case"] opts
  ∧ negate st'.1 = negate st.1 || given ["-n"; "--negate"] opts
  ∧ st'.2 = st.2 || given ["-s"; "--assembly"] opts
  ∧ ipversion st'.1
    = (if given ["-6"; "--inet6"] opts then IPv6 else ipversion st.1)
  ∧ l3_off st'.1 = default (l3_off st.1) (last (offsets int opts)).
Proof.
  revert st. induction opts as [| oa opts IH]; intros st.
  { intros [= <-]. cbn. by rewrite !orb_false_r. }
  cbn [handle_opts].
  destruct (handle_opt int st oa) as [h | st1] eqn:Hoa; [done |].
  intros Hrest. destruct (IH st1 Hrest) as (Hi & Hn & Hs & H6 & Ho).
  destruct (handle_opt_effect int st oa st1 Hoa)
    as (Hi1 & Hn1 & Hs1 & H61 & Ho1).
  rewrite !given_cons. split_and!.
  - by rewrite Hi, Hi1, orb_assoc.
  - by rewrite Hn, Hn1, orb_assoc.
  - by rewrite Hs, Hs1, orb_assoc.
  - rewrite H6, H61.
    by destruct (bool_decide (oa.1 ∈ ["-6"; "--inet6"])),
         (given ["-6"; "--inet6"] opts).
  - rewrite Ho, Ho1. unfold offsets. cbn [omap list_omap].
    destruct (decide (oa.1 ∈ ["-o"; "--offset"])); [| done].
    destruct (int oa.2) as [n |]; [| done].
    rewrite last_cons. cbn. by destruct (last _).
Qed.

(** X15. The loop stops at the first option that asks for the usage text or
    carries an offset [int] rejects: what follows it is not looked at. *)
Theorem option_loop_stops (int : string → option Z) (st st1 : settings)
    (pre post : list (string * string)) (o a : string) :
  handle_opts int st pre = inr st1 →
  (o ∈ ["-h"; "--help"] →
     handle_opts int st (pre ++ (o, a) :: post) = inl Usage)
  ∧ (o ∈ ["-o"; "--offset"] → int a = None →
     handle_opts int st (pre ++ (o, a) :: post) = inl BadOffset).
Proof.
  intros Hpre. rewrite handle_opts_app, Hpre. cbn [handle_opts].
  destruct st1 as [s assembly]. unfold handle_opt. split.
  - intros Ho. by rewrite decide_True.
  - intros Ho Ha. rewrite Ha. by concrete_name Ho.
Qed.

(** ** Further instances *)

Lemma tokenize_fails_on_long_part_witness :
  long_part (replicate 256 "a"%char)
  ∧ tokenize (replicate 256 "a"%char) = None.
Proof.
  assert (long_part (replicate 256 "a"%char)) as Hlong.
  { unfold long_part. apply Exists_exists.
    exists (replicate 256 "a"%char). split; [| vm_compute; lia].
    vm_compute. left. }
  split; [exact Hlong |].
  destruct (tokenize_fails_on_long_part (replicate 256 "a"%char)) as [Hiff _].
  apply Hiff. exact Hlong.
Defined.

Lemma tokenize_round_trip_witness :
  tokenize (of_string " .*.fin?.me") =
    Some [ Literal [(false, "000"%char)];
           Wildcard;
           Literal ((false, "004"%char)
                    :: ((λ c, (true, c)) <$> of_string "fin?"));
           Literal ((false, "002"%char)
                    :: ((λ c, (true, c)) <$> of_string "me"));
           Literal [(false, "000"%char)] ]
  ∧ join dot [[]; star; of_string "fin?"; of_string "me"; []]
    = normalize (of_string " .*.fin?.me").
Proof.
  split; [reflexivity |].
  destruct (tokenize_round_trip (of_string " .*.fin?.me") _ eq_refl)
    as [Hjoin _].
  exact Hjoin.
Defined.

Lemma main_outcomes_witness :
  fint_args ≠ [] ∧ ¬ Exists long_part fint_args
  ∧ ∃ listing, main default_options fint_args = inr listing.
Proof.
  assert (fint_args ≠ []) as Hne by done.
  assert (¬ Exists long_part fint_args) as Hshort.
  { intros Hlong.
    destruct (main_outcomes default_options fint_args) as (_ & [_ Hback] & _).
    specialize (Hback (conj Hne Hlong)).
    rewrite fint_main in Hback. discriminate Hback. }
  split; [exact Hne |]. split; [exact Hshort |].
  destruct (main_outcomes default_options fint_args) as (_ & _ & _ & Hok).
  exact (Hok Hne Hshort).
Defined.

Lemma header_options_local_witness :
  (ignorecase vlan6_options = ignorecase default_options
   ∧ negate vlan6_options = negate default_options
   ∧ program default_options fint_rules = Some fint_listing)
  ∧ program vlan6_options fint_rules
    = Some (Insn (ld_imm (18 + 40 + 8 + 12)) :: drop 4 fint_listing).
Proof.
  split; [split; [reflexivity | split; [reflexivity | exact fint_program]] |].
  exact (header_options_local default_options vlan6_options fint_rules
           fint_listing eq_refl eq_refl fint_program).
Defined.

Lemma main_labels_witness :
  main default_options fint_args = inr fint_listing
  ∧ labels fint_listing = ["lb_0"; "lb_1"; "lb_2"].
Proof.
  split; [exact fint_main |].
  destruct (main_labels default_options fint_args fint_listing fint_main)
    as [Hlabels _].
  exact Hlabels.
Defined.

Lemma constants_fit_width_witness :
  (Insn (jneq Word 0xff026d65 "lb_1")
     ∈ match_exact false
         ([(false, "004"%char)] ++ ((λ c, (true, c)) <$> of_string "fin?")
          ++ [(false, "002"%char)] ++ ((λ c, (true, c)) <$> of_string "me")
          ++ [(false, "000"%char)]) "lb_1" true
   ∧ constant (Insn (jneq Word 0xff026d65 "lb_1")) = Some (Word, 0xff026d65))
  ∧ 0 ≤ 0xff026d65 < 2 ^ 32.
Proof.
  assert (Insn (jneq Word 0xff026d65 "lb_1")
            ∈ match_exact false
                ([(false, "004"%char)] ++ ((λ c, (true, c)) <$> of_string "fin?")
                 ++ [(false, "002"%char)]
                 ++ ((λ c, (true, c)) <$> of_string "me")
                 ++ [(false, "000"%char)]) "lb_1" true) as Hin.
  { apply (list_elem_of_lookup_2 _ 5%nat). vm_compute. reflexivity. }
  split; [split; [exact Hin | reflexivity] |].
  exact (constants_fit_width false _ "lb_1" true _ Word 0xff026d65
           Hin eq_refl).
Defined.

Lemma label_line_unambiguous_witness :
  render (Label "lb_3") = render (Label (lb 3)) ∧ Label "lb_3" = Label (lb 3).
Proof.
  split; [reflexivity |].
  exact (label_line_unambiguous (Label "lb_3") 3 eq_refl).
Defined.

Lemma options_accumulate_witness :
  handle_opts (λ a, if decide (a = "18") then Some 18 else None)
    initial_settings
    [("-o", "14"); ("-i", ""); ("--offset", "18"); ("-6", ""); ("-i", "")]
  = inl BadOffset
  ∧ handle_opts (λ a, if decide (a = "18") then Some 18 else None)
      initial_settings
      [("-i", ""); ("--offset", "18"); ("-6", ""); ("-i", "")]
    = inr ({| ignorecase := true; negate := false;
              l3_off := 18; ipversion := IPv6 |}, false)
  ∧ l3_off {| ignorecase := true; negate := false;
              l3_off := 18; ipversion := IPv6 |} = 18.
Proof.
  split; [reflexivity |].
  assert (handle_opts (λ a, if decide (a = "18") then Some 18 else None)
            initial_settings
            [("-i", ""); ("--offset", "18"); ("-6", ""); ("-i", "")]
          = inr ({| ignorecase := true; negate := false;
                    l3_off := 18; ipversion := IPv6 |}, false)) as Hrun
    by reflexivity.
  split; [exact Hrun |].
  destruct (options_accumulate _ _ _ _ Hrun) as (_ & _ & _ & _ & Hoff).
  exact Hoff.
Defined.

Lemma option_loop_stops_witness :
  handle_opts (λ a, if decide (a = "18") then Some 18 else None)
    initial_settings [("-n", "")]
  = inr ({| ignorecase := false; negate := true;
            l3_off := 14; ipversion := IPv4 |}, false)
  ∧ "--help" ∈ ["-h"; "--help"]
  ∧ handle_opts (λ a, if decide (a = "18") then Some 18 else None)
      initial_settings ([("-n", "")] ++ ("--help", "") :: [("-o", "x")])
    = inl Usage.
Proof.
  assert (handle_opts (λ a, if decide (a = "18") then Some 18 else None)
            initial_settings [("-n", "")]
          = inr ({| ignorecase := false; negate := true;
                    l3_off := 14; ipversion := IPv4 |}, false)) as Hpre
    by reflexivity.
  assert ("--help" ∈ ["-h"; "--help"]) as Hhelp by (right; left).
  split; [exact Hpre |]. split; [exact Hhelp |].
  destruct (option_loop_stops _ _ _ [("-n", "")] [("-o", "x")] "--help" ""
              Hpre) as [Hstop _].
  exact (Hstop Hhelp).
Defined.
